(** * Brand-mention analytics engine

    A shallow embedding of [backend/app/services/analytics_service.py]
    (class [AnalyticsService]) together with the properties of the
    engine's natural-language specification.

    Conventions.
    - A Python [str] is a list of characters.  The characters are the code
      points U+0000..U+00FF, which the type [ascii] enumerates; their
      classification ([str.isspace], the regular-expression classes [\s]
      and [\w], [str.lower]) follows CPython's Unicode database on that
      range.
    - A Python [int] is a [Z]; [len] is [Z.of_nat] of a list length.
    - A Python [dict] is an insertion-ordered association list with unique
      keys ([Dict]).
    - A computation that logs and may raise is a value of [Py]: the log
      records it emitted, and either the exception raised or the value
      returned. *)

From Stdlib Require Import Ascii String.
From Stdlib Require Import List ZArith NArith Bool Lia QArith Arith.
From Stdlib Require Import Permutation.
Import ListNotations.

Set Implicit Arguments.
Set Warnings "-register-all".

(* ================================================================== *)
(** ** Python strings *)
(* ================================================================== *)

Module PyStr.

Definition str := list ascii.

(** String literals. *)
Definition lit (s : string) : str := list_ascii_of_string s.

Definition code (c : ascii) : N := N_of_ascii c.

Definition between (lo hi : N) (c : ascii) : bool :=
  ((lo <=? code c) && (code c <=? hi))%N.

Definition is_code (n : N) (c : ascii) : bool := (code c =? n)%N.

(** [Py_UNICODE_ISSPACE]: what [str.isspace], [str.strip], [str.split]
    and the pattern [\s] use. *)
Definition isspace (c : ascii) : bool :=
  between 9 13 c || between 28 32 c || is_code 133 c || is_code 160 c.

(** [Py_UNICODE_ISALNUM]: letters, decimal digits, and the characters with
    a digit or numeric value (superscripts and vulgar fractions). *)
Definition isalnum (c : ascii) : bool :=
  between 48 57 c || between 65 90 c || between 97 122 c
  || is_code 170 c || between 178 179 c || is_code 181 c
  || between 185 186 c || between 188 190 c
  || between 192 214 c || between 216 246 c || between 248 255 c.

(** The pattern class [\w]. *)
Definition is_word (c : ascii) : bool := isalnum c || is_code 95 c.

(** [str.lower] on one character: A-Z and the capital letters
    U+00C0..U+00DE (the multiplication sign U+00D7 apart). *)
Definition lower_char (c : ascii) : ascii :=
  if between 65 90 c || (between 192 222 c && negb (is_code 215 c))
  then ascii_of_N (code c + 32)
  else c.

Definition lower (s : str) : str := map lower_char s.

Definition space : ascii := " "%char.

Fixpoint str_eqb (a b : str) : bool :=
  match a, b with
  | [], [] => true
  | x :: a', y :: b' => Ascii.eqb x y && str_eqb a' b'
  | _, _ => false
  end.

(** [w in l] for a list or a set of strings. *)
Definition mem (w : str) (l : list str) : bool := existsb (str_eqb w) l.

(** [s.lstrip()], [s.rstrip()], [s.strip()]. *)
Fixpoint lstrip (s : str) : str :=
  match s with
  | [] => []
  | c :: s' => if isspace c then lstrip s' else s
  end.

Definition rstrip (s : str) : str := rev (lstrip (rev s)).

Definition strip (s : str) : str := rstrip (lstrip s).

(** [s.split()]: the maximal runs of characters that are not whitespace.
    [cur] is the run being read. *)
Fixpoint split_from (cur : str) (s : str) : list str :=
  match s with
  | [] => match cur with [] => [] | _ => [cur] end
  | c :: s' =>
      if isspace c
      then match cur with
           | [] => split_from [] s'
           | _ => cur :: split_from [] s'
           end
      else split_from (cur ++ [c]) s'
  end.

Definition split (s : str) : list str := split_from [] s.

(** [sep.join(words)]. *)
Fixpoint join (sep : str) (words : list str) : str :=
  match words with
  | [] => []
  | [w] => w
  | w :: ws => w ++ sep ++ join sep ws
  end.

(** [len(s)]. *)
Definition len {A} (l : list A) : Z := Z.of_nat (length l).

(** [s[a:b]] with Python's treatment of negative and out-of-range
    bounds. *)
Definition clamp_index (n i : Z) : Z :=
  if (i <? 0)%Z then Z.max 0 (i + n) else Z.min i n.

Definition slice {A} (s : list A) (a b : Z) : list A :=
  let a' := clamp_index (len s) a in
  let b' := clamp_index (len s) b in
  firstn (Z.to_nat (b' - a')) (skipn (Z.to_nat a') s).

End PyStr.

Import PyStr.

(* ================================================================== *)
(** ** The two regular expressions of the service *)
(* ================================================================== *)

Module Re.

(** [re.sub(r'[^\w\s\'-]', ' ', s)]: every character that is not a word
    character, whitespace, an apostrophe or a hyphen becomes a space. *)
Definition keeps (c : ascii) : bool :=
  is_word c || isspace c || is_code 39 c || is_code 45 c.

Definition sub_punct (s : str) : str :=
  map (fun c => if keeps c then c else space) s.

(** [re.sub(r'\s+', ' ', s)]: every maximal run of whitespace becomes one
    space.  [in_run] tells that the previous character belonged to the run
    being replaced. *)
Fixpoint sub_ws_from (in_run : bool) (s : str) : str :=
  match s with
  | [] => []
  | c :: s' =>
      if isspace c
      then if in_run then sub_ws_from true s'
           else space :: sub_ws_from true s'
      else c :: sub_ws_from false s'
  end.

Definition sub_ws (s : str) : str := sub_ws_from false s.

(** The character at offset [i], if any. *)
Definition char_at (text : str) (i : nat) : option ascii := nth_error text i.

Definition word_at (text : str) (i : nat) : bool :=
  match char_at text i with
  | Some c => is_word c
  | None => false
  end.

(** [\b] at offset [i]: exactly one of the characters before and after the
    offset is a word character (outside the text counts as not a word
    character). *)
Definition boundary (text : str) (i : nat) : bool :=
  let before := match i with O => false | S j => word_at text j end in
  xorb before (word_at text i).

(** Two characters are equal under [re.IGNORECASE]. *)
Definition ci_eqb (a b : ascii) : bool :=
  Ascii.eqb (lower_char a) (lower_char b).

(** The escaped literal [name] matches [s] at its head, case-insensitively. *)
Fixpoint literal_prefix (name s : str) : bool :=
  match name, s with
  | [], _ => true
  | p :: name', c :: s' => ci_eqb p c && literal_prefix name' s'
  | _ :: _, [] => false
  end.

(** The pattern [\b name \b] matches at offset [i]. *)
Definition match_at (name text : str) (i : nat) : bool :=
  boundary text i
  && literal_prefix name (skipn i text)
  && boundary text (i + length name).

(** The scan of [re.finditer]: offsets are tried from left to right; after
    a match ending at [resume] the scan goes on from there, so matches do
    not overlap.  Returns the start offsets; every match of a literal has
    the literal's length. *)
Fixpoint scan (name text : str) (offsets : list nat) (resume : nat)
  : list nat :=
  match offsets with
  | [] => []
  | i :: rest =>
      if (resume <=? i)%nat && match_at name text i
      then i :: scan name text rest (i + length name)
      else scan name text rest resume
  end.

(** [list(re.finditer(r'\b' + re.escape(name) + r'\b', text,
    re.IGNORECASE))] for a non-empty [name], as the list of
    [match.start()]. *)
Definition finditer (name text : str) : list nat :=
  scan name text (seq 0 (S (length text))) 0.

End Re.

(* ================================================================== *)
(** ** Name normalizer: [AnalyticsService._clean_brand_name] *)
(* ================================================================== *)

(** [self.stop_words], set in [__init__]. *)
Definition stop_words : list str := map lit
  [ "the"; "a"; "an"; "and"; "or"; "but"; "in"; "on"; "at"; "to"; "for";
    "of"; "with"; "by"; "from"; "up"; "about"; "into"; "through"; "during";
    "before"; "after"; "above"; "below"; "between"; "is"; "are"; "was";
    "were"; "been"; "be"; "have"; "has"; "had"; "do"; "does"; "did"; "will";
    "would"; "could"; "should"; "may"; "might"; "must"; "can"; "restaurant";
    "company"; "business"; "service"; "shop"; "store"; "best"; "good";
    "great"; "near"; "me"; "my"; "you"; "your"; "they"; "their"; "them";
    "we"; "our"; "us" ]%string.

Definition suffixes : list str := map lit
  [ "inc"; "llc"; "ltd"; "corp"; "corporation"; "company"; "co";
    "restaurant"; "cafe"; "bar"; "pub"; "grill"; "kitchen";
    "services"; "solutions"; "group"; "international"; "global" ]%string.

(** The test of the filtering loop. *)
Definition keep_word (word : str) : bool :=
  negb (mem word suffixes) && negb (mem word stop_words)
  && (1 <? len word)%Z.

Definition _clean_brand_name (brand_name : str) : str :=
  let clean_name := strip (lower brand_name) in
  let clean_name := Re.sub_punct clean_name in
  let words := split clean_name in
  let filtered_words := filter keep_word words in
  join [space] filtered_words.

(* ================================================================== *)
(** ** Python values: integers, dictionaries, exceptions, logging *)
(* ================================================================== *)

(** [sum(xs)] over integers. *)
Definition sum (xs : list Z) : Z := fold_left Z.add xs 0%Z.

(** [a / b] on integers: the exact quotient, of which Python returns the
    nearest float.  Every division of the service has a positive divisor
    ([ZeroDivisionError] cannot arise). *)
Definition truediv (a b : Z) : Q := (inject_Z a / inject_Z b)%Q.

Module Dict.
Section Defs.
Variable V : Type.

(** Insertion-ordered, one entry per key. *)
Definition t := list (str * V).

Definition empty : t := [].

(** [d.get(k)]. *)
Fixpoint get (d : t) (k : str) : option V :=
  match d with
  | [] => None
  | (k', v) :: d' => if str_eqb k k' then Some v else get d' k
  end.

(** [d[k] = v]: an existing key keeps its place. *)
Fixpoint set (d : t) (k : str) (v : V) : t :=
  match d with
  | [] => [(k, v)]
  | (k', v') :: d' =>
      if str_eqb k k' then (k', v) :: d' else (k', v') :: set d' k v
  end.

(** [k in d]. *)
Definition contains (d : t) (k : str) : bool :=
  match get d k with Some _ => true | None => false end.

Definition keys (d : t) : list str := map fst d.
Definition values (d : t) : list V := map snd d.
Definition items (d : t) : list (str * V) := d.
End Defs.
End Dict.

Inductive Exception :=
| JSONDecodeError (msg : str)
| TypeError (msg : str)
| ValidationError (msg : str)
| OtherException (msg : str).

(** [str(e)]. *)
Definition exc_str (e : Exception) : str :=
  match e with
  | JSONDecodeError m | TypeError m | ValidationError m | OtherException m => m
  end.

(** The calls to [logger]; each constructor stands for one message
    template of the service. *)
Inductive LogRecord :=
| ErrorAnalyticsFailed (response_id : str) (e : Exception)
| WarningUnparsableJson
| ErrorEnhancedFailed (e : Exception)
| ErrorBatchItemFailed (e : Exception)
| ErrorBatchFailed (e : Exception).

(** A computation: the records logged, then the exception raised or the
    value returned. *)
Definition Py (A : Type) : Type := list LogRecord * (Exception + A).

Definition ret {A} (a : A) : Py A := ([], inr a).
Definition raise {A} (e : Exception) : Py A := ([], inl e).
Definition log (r : LogRecord) : Py unit := ([r], inr tt).

Definition bind {A B} (m : Py A) (k : A -> Py B) : Py B :=
  match m with
  | (l, inl e) => (l, inl e)
  | (l, inr a) => let '(l', r) := k a in (l ++ l', r)
  end.

(** [try: body except Exception as e: handler(e)]. *)
Definition try_except {A} (body : Py A) (handler : Exception -> Py A)
  : Py A :=
  match body with
  | (l, inl e) => let '(l', r) := handler e in (l ++ l', r)
  | (l, inr a) => (l, inr a)
  end.

(** An external call that raises or returns. *)
Definition call {A} (r : Exception + A) : Py A := ([], r).

Declare Scope py_scope.
Delimit Scope py_scope with py.
Notation "x <- m ;; k" := (bind m (fun x => k))
  (at level 61, m at next level, right associativity) : py_scope.
Notation "m ;;; k" := (bind m (fun _ => k))
  (at level 61, right associativity) : py_scope.
Open Scope py_scope.

(** [for x in xs: acc = body(acc, x)] where the body may log or raise. *)
Fixpoint for_each {A S} (xs : list A) (acc : S) (body : S -> A -> Py S)
  : Py S :=
  match xs with
  | [] => ret acc
  | x :: xs' => acc' <- body acc x ;; for_each xs' acc' body
  end.

Definition logged {A} (m : Py A) : list LogRecord := fst m.
Definition outcome {A} (m : Py A) : Exception + A := snd m.

(** JSON values, as [json.loads] builds them. *)
Inductive json :=
| JNull
| JBool (b : bool)
| JNumber (literal : str)
| JString (s : str)
| JList (l : list json)
| JDict (d : list (str * json)).

(* ================================================================== *)
(** ** Data model ([app/models/schemas.py]) *)
(* ================================================================== *)

Inductive LLMProvider := OPENAI | ANTHROPIC | GEMINI.

(** The fields of [User] and of [Competitor] that the service reads. *)
Module User.
Record t := mk
  { id : str; business_name : str; sector : str; location : str }.
End User.

Module Competitor.
Record t := mk { id : str; name : str }.
End Competitor.

(** [created_at] is a [datetime], kept as a number. *)
Module LLMResponse.
Record t := mk
  { id : str;
    user_id : str;
    prompt_id : str;
    provider : LLMProvider;
    model : str;
    response_content : str;
    created_at : Z }.
End LLMResponse.

Module BrandMention.
Record t := mk
  { brand_name : str;
    mention_count : Z;
    mention_positions : list Z;
    context_snippets : list str }.
End BrandMention.

Module AnalyticsResult.
Record t := mk
  { id : str;
    user_id : str;
    prompt_id : str;
    llm_response_id : str;
    user_brand_mentions : Z;
    competitor_mentions : Dict.t Z;
    total_mentions : Z;
    mention_details : list BrandMention.t;
    analysis_metadata : option (Dict.t json);
    created_at : Z }.
End AnalyticsResult.

(** The dictionary [_count_brand_mentions] returns. *)
Module Mentions.
Record t := mk
  { mention_count : Z;
    mention_positions : list Z;
    context_snippets : list str }.

Definition zero : t := mk 0 [] [].
End Mentions.

(* ================================================================== *)
(** ** Mention matcher: [AnalyticsService._count_brand_mentions] *)
(* ================================================================== *)

(** The body of the loop over the matches: the context of the match that
    starts at [start] and ends at [stop]. *)
Definition context_of (text : str) (start stop : Z) : str :=
  let start_pos := Z.max 0 (start - 50) in
  let end_pos := Z.min (len text) (stop + 50) in
  let context := strip (slice text start_pos end_pos) in
  Re.sub_ws context.

Definition _count_brand_mentions (text brand_name : str) : Mentions.t :=
  let clean_brand_name := _clean_brand_name brand_name in
  if match clean_brand_name with [] => true | _ => false end
     || (len clean_brand_name <? 2)%Z
  then Mentions.mk 0 [] []
  else
    let matches := Re.finditer clean_brand_name text in
    let mention_positions := map Z.of_nat matches in
    let context_snippets :=
      map (fun start =>
             context_of text (Z.of_nat start)
                        (Z.of_nat start + len clean_brand_name))
          matches in
    Mentions.mk (len matches) mention_positions context_snippets.

(* ================================================================== *)
(** ** Response analyzer: [AnalyticsService.analyze_response] *)
(* ================================================================== *)

(** The prompt of [_enhanced_analysis] is a fixed template; it is
    represented by the values interpolated into it. *)
Module AnalysisPrompt.
Record t := mk
  { sector : str;
    business_name : str;
    competitor_names : list str;
    response_excerpt : str;
    location : str }.
End AnalysisPrompt.

(** What the service gets from outside: [llm_service.generate_response]
    (called with provider OpenAI, model gpt-3.5-turbo, 800 tokens,
    temperature 0.2), which raises or returns a dictionary whose
    ["content"] may be [None]; [json.loads]; and the conversion [dict(v)]
    that pydantic tries on a value that is not a dictionary. *)
Module Env.
Record t := mk
  { generate_response : AnalysisPrompt.t -> str -> Exception + option str;
    json_loads : str -> Exception + json;
    dict_of : json -> Exception + Dict.t json }.
End Env.

(** Truth value of an optional string ([if api_key]). *)
Definition truthy (s : option str) : bool :=
  match s with
  | Some (_ :: _) => true
  | _ => false
  end.

(** The f-string [analysis_prompt]. *)
Definition analysis_prompt (user : User.t) (competitor_names : list str)
    (response_content : str) : AnalysisPrompt.t :=
  AnalysisPrompt.mk (User.sector user) (User.business_name user)
    (slice competitor_names 0 10) (slice response_content 0 1500)
    (User.location user).

Definition _enhanced_analysis (env : Env.t) (user : User.t)
    (competitors : list Competitor.t) (response_content : str)
    (api_key : str) : Py json :=
  try_except
    (let competitor_names := map Competitor.name competitors in
     let analysis_prompt :=
       analysis_prompt user competitor_names response_content in
     content <- call (Env.generate_response env analysis_prompt api_key) ;;
     match content with
     | None =>
         (* json.loads(None) *)
         raise (TypeError (lit "the JSON object must be str, bytes or bytearray, not NoneType"))
     | Some text =>
         match Env.json_loads env text with
         | inr analysis_data => ret analysis_data
         | inl (JSONDecodeError _) =>
             log WarningUnparsableJson ;;;
             ret (JDict [(lit "raw_analysis", JString text)])
         | inl e => raise e
         end
     end)
    (fun e =>
       log (ErrorEnhancedFailed e) ;;;
       ret (JDict [(lit "error", JString (exc_str e))])).

(** Validation of the field [analysis_metadata : Optional[Dict[str, Any]]]
    when the [AnalyticsResult] is built. *)
Definition validate_metadata (env : Env.t) (v : json)
  : Py (option (Dict.t json)) :=
  match v with
  | JNull => ret None
  | JDict d => ret (Some d)
  | _ => match Env.dict_of env v with
         | inr d => ret (Some d)
         | inl e => raise (ValidationError (exc_str e))
         end
  end.

(** The loop over the competitors; the state is the pair of
    [competitor_mentions] and [competitor_mention_details]. *)
Definition competitor_step (response_content : str)
    (st : Dict.t Z * list BrandMention.t) (competitor : Competitor.t)
  : Dict.t Z * list BrandMention.t :=
  let '(competitor_mentions, competitor_mention_details) := st in
  let mentions :=
    _count_brand_mentions response_content (Competitor.name competitor) in
  let competitor_mentions :=
    Dict.set competitor_mentions (Competitor.name competitor)
             (Mentions.mention_count mentions) in
  if (0 <? Mentions.mention_count mentions)%Z
  then (competitor_mentions,
        competitor_mention_details ++
          [BrandMention.mk (Competitor.name competitor)
             (Mentions.mention_count mentions)
             (Mentions.mention_positions mentions)
             (Mentions.context_snippets mentions)])
  else (competitor_mentions, competitor_mention_details).

Definition analyze_response (env : Env.t) (user : User.t)
    (competitors : list Competitor.t) (llm_response : LLMResponse.t)
    (api_key : option str) (enhanced_analysis : bool)
  : Py AnalyticsResult.t :=
  try_except
    (let response_content :=
       lower (LLMResponse.response_content llm_response) in
     let user_brand_mentions :=
       _count_brand_mentions response_content (User.business_name user) in
     let '(competitor_mentions, competitor_mention_details) :=
       fold_left (competitor_step response_content) competitors
                 (Dict.empty Z, []) in
     let user_mention_details :=
       if (0 <? Mentions.mention_count user_brand_mentions)%Z
       then [BrandMention.mk (User.business_name user)
               (Mentions.mention_count user_brand_mentions)
               (Mentions.mention_positions user_brand_mentions)
               (Mentions.context_snippets user_brand_mentions)]
       else [] in
     let total_mentions :=
       (Mentions.mention_count user_brand_mentions
        + sum (Dict.values competitor_mentions))%Z in
     analysis_metadata <-
       (if enhanced_analysis && truthy api_key
        then _enhanced_analysis env user competitors
               (LLMResponse.response_content llm_response)
               (match api_key with Some key => key | None => [] end)
        else ret (JDict [])) ;;
     let all_mention_details :=
       user_mention_details ++ competitor_mention_details in
     metadata <- validate_metadata env analysis_metadata ;;
     ret (AnalyticsResult.mk
            []
            (User.id user)
            (LLMResponse.prompt_id llm_response)
            (LLMResponse.id llm_response)
            (Mentions.mention_count user_brand_mentions)
            competitor_mentions
            total_mentions
            all_mention_details
            metadata
            (LLMResponse.created_at llm_response)))
    (fun e =>
       log (ErrorAnalyticsFailed (LLMResponse.id llm_response) e) ;;;
       raise e).

(* ================================================================== *)
(** ** Batch analyzer: [AnalyticsService.batch_analyze_responses] *)
(* ================================================================== *)

(** [await asyncio.gather( *tasks, return_exceptions=True)]: the tasks are
    run, and the list returned holds, in the order of [tasks], the value
    each one returned or the exception it raised.  The gathering itself
    does not raise. *)
Definition gather_return_exceptions {A} (tasks : list (Py A))
  : Py (list (Exception + A)) :=
  (concat (map (@logged A) tasks), inr (map (@outcome A) tasks)).

(** The loop that keeps the successful results. *)
Definition keep_successful {A} (successful_results : list A)
    (result : Exception + A) : Py (list A) :=
  match result with
  | inl e => log (ErrorBatchItemFailed e) ;;; ret successful_results
  | inr r => ret (successful_results ++ [r])
  end.

(** The body of the method, for any behaviour [analyze] of
    [self.analyze_response(user=user, competitors=competitors,
    llm_response=response, api_key=api_key, enhanced_analysis=False)] on
    one response. *)
Definition batch_analyze (A : Type) (analyze : LLMResponse.t -> Py A)
    (llm_responses : list LLMResponse.t) : Py (list A) :=
  let tasks :=
    fold_left (fun tasks response => tasks ++ [analyze response])
              llm_responses [] in
  try_except
    (results <- gather_return_exceptions tasks ;;
     for_each results [] keep_successful)
    (fun e => log (ErrorBatchFailed e) ;;; raise e).

Definition batch_analyze_responses (env : Env.t) (user : User.t)
    (competitors : list Competitor.t) (llm_responses : list LLMResponse.t)
    (api_key : option str) : Py (list AnalyticsResult.t) :=
  batch_analyze
    (fun response =>
       analyze_response env user competitors response api_key false)
    llm_responses.

(* ================================================================== *)
(** ** Metrics aggregator:
       [AnalyticsService.calculate_performance_metrics] *)
(* ================================================================== *)

(** [collections.Counter] over competitor names. *)
Module Counter.
Definition t := Dict.t Z.

(** [c[k] += n]; a missing key counts as zero. *)
Definition add (c : t) (k : str) (n : Z) : t :=
  Dict.set c k (match Dict.get c k with Some v => v | None => 0 end + n)%Z.

(** Insertion into a list sorted by decreasing count, before the first
    entry whose count is not larger. *)
Fixpoint insert (x : str * Z) (l : list (str * Z)) : list (str * Z) :=
  match l with
  | [] => [x]
  | y :: l' => if (snd x <? snd y)%Z then y :: insert x l' else x :: y :: l'
  end.

(** [sorted(c.items(), key=itemgetter(1), reverse=True)]: entries of equal
    count stay in insertion order. *)
Fixpoint sorted_desc (l : list (str * Z)) : list (str * Z) :=
  match l with
  | [] => []
  | x :: l' => insert x (sorted_desc l')
  end.

(** [c.most_common(n)]. *)
Definition most_common (c : t) (n : nat) : list (str * Z) :=
  firstn n (sorted_desc (Dict.items c)).
End Counter.

Module Metrics.
Record competitor_entry := mk_entry
  { name : str; total_mentions : Z; mention_rate : Q }.

(** The two texts of [performance_summary]: the fixed one, and the one
    built from the two counts and their percentage. *)
Inductive summary :=
| NoDataAvailable
| UserMentionedIn (responses_with_user_mentions total_responses : Z)
                  (percent : Q).

(** The dictionary returned; the keys that the dictionary for an empty
    input lacks are optional. *)
Record t := mk
  { total_responses : Z;
    user_mention_rate : Q;
    user_mentions_per_response : option Q;
    average_mentions_per_response : Q;
    top_competitors : list competitor_entry;
    total_competitor_mentions : option Z;
    unique_competitors_mentioned : option Z;
    performance_summary : summary }.
End Metrics.

(** The two nested loops that fill [all_competitor_mentions]. *)
Definition count_competitors (analytics_results : list AnalyticsResult.t)
  : Counter.t :=
  fold_left
    (fun all_competitor_mentions result =>
       fold_left
         (fun acc '(competitor, count) => Counter.add acc competitor count)
         (Dict.items (AnalyticsResult.competitor_mentions result))
         all_competitor_mentions)
    analytics_results (Dict.empty Z).

Definition calculate_performance_metrics
    (analytics_results : list AnalyticsResult.t) : Metrics.t :=
  match analytics_results with
  | [] =>
      Metrics.mk 0 0 None 0 [] None None Metrics.NoDataAvailable
  | _ =>
      let total_responses := len analytics_results in
      let total_user_mentions :=
        sum (map AnalyticsResult.user_brand_mentions analytics_results) in
      let responses_with_user_mentions :=
        sum (map (fun _ => 1%Z)
               (filter
                  (fun result =>
                     (0 <? AnalyticsResult.user_brand_mentions result)%Z)
                  analytics_results)) in
      let all_competitor_mentions := count_competitors analytics_results in
      let top_competitors :=
        map (fun '(competitor, count) =>
               Metrics.mk_entry competitor count
                                (truediv count total_responses))
            (Counter.most_common all_competitor_mentions 10) in
      Metrics.mk
        total_responses
        (if (0 <? total_responses)%Z
         then truediv responses_with_user_mentions total_responses
         else 0)
        (Some (if (0 <? total_responses)%Z
               then truediv total_user_mentions total_responses
               else 0))
        (if (0 <? total_responses)%Z
         then truediv
                (sum (map AnalyticsResult.total_mentions analytics_results))
                total_responses
         else 0)
        top_competitors
        (Some (sum (Dict.values all_competitor_mentions)))
        (Some (len all_competitor_mentions))
        (Metrics.UserMentionedIn responses_with_user_mentions
           total_responses
           (truediv responses_with_user_mentions total_responses * 100))
  end.

(* ================================================================== *)
(** ** Model comparator: [AnalyticsService.compare_model_performance] *)
(* ================================================================== *)

(** The text of a provider inside an f-string: the value of the member
    (from Python 3.11 on, the f-string gives the qualified name of the
    member, [LLMProvider.OPENAI], instead).  Neither has an underscore,
    and the texts of two providers differ. *)
Definition provider_text (p : LLMProvider) : str :=
  match p with
  | OPENAI => lit "openai"
  | ANTHROPIC => lit "anthropic"
  | GEMINI => lit "gemini"
  end.

(** [f"{llm_response.provider}_{llm_response.model}"]. *)
Definition model_key_of (provider : LLMProvider) (model : str) : str :=
  provider_text provider ++ lit "_" ++ model.

(** [next((r for r in llm_responses if r.id == result.llm_response_id),
    None)]. *)
Definition find_response (llm_responses : list LLMResponse.t)
    (result : AnalyticsResult.t) : option LLMResponse.t :=
  find (fun r =>
          str_eqb (LLMResponse.id r) (AnalyticsResult.llm_response_id result))
       llm_responses.

(** The body of the grouping loop. *)
Definition group_step (llm_responses : list LLMResponse.t)
    (model_groups : Dict.t (list AnalyticsResult.t))
    (result : AnalyticsResult.t) : Dict.t (list AnalyticsResult.t) :=
  match find_response llm_responses result with
  | None => model_groups
  | Some llm_response =>
      let model_key :=
        model_key_of (LLMResponse.provider llm_response)
                     (LLMResponse.model llm_response) in
      let model_groups :=
        if negb (Dict.contains model_groups model_key)
        then Dict.set model_groups model_key []
        else model_groups in
      match Dict.get model_groups model_key with
      | Some group => Dict.set model_groups model_key (group ++ [result])
      | None => model_groups
      end
  end.

(** [model_groups] after the first loop. *)
Definition group_by_model (analytics_results : list AnalyticsResult.t)
    (llm_responses : list LLMResponse.t)
  : Dict.t (list AnalyticsResult.t) :=
  fold_left (group_step llm_responses) analytics_results
            (Dict.empty (list AnalyticsResult.t)).

Definition compare_model_performance
    (analytics_results : list AnalyticsResult.t)
    (llm_responses : list LLMResponse.t) : Dict.t Metrics.t :=
  let model_groups := group_by_model analytics_results llm_responses in
  fold_left
    (fun model_comparison '(model_key, results) =>
       let metrics := calculate_performance_metrics results in
       Dict.set model_comparison model_key metrics)
    (Dict.items model_groups) (Dict.empty Metrics.t).

(* ================================================================== *)
(** ** Model performance: the route [get_model_performance] of
       [app/api/analytics.py] *)
(* ================================================================== *)




Module ModelPerformance.
Record t := mk
  { provider : LLMProvider;
    model : str;
    total_responses : Z;
    user_brand_mentions : Z;
    mention_rate : Q;
    avg_response_time : option Q }.
End ModelPerformance.








(* ================================================================== *)
(** ** Prompt generation:
       [PromptGenerationService._parse_prompts_response] of
       [app/services/prompt_generation.py] *)
(* ================================================================== *)

(** [s.find(c)]: the offset of the first [c], or -1.  [i] is the offset
    of the head of [s]. *)
Fixpoint find_from (c : ascii) (s : str) (i : Z) : Z :=
  match s with
  | [] => (-1)%Z
  | x :: s' => if Ascii.eqb x c then i else find_from c s' (i + 1)%Z
  end.

Definition find_char (c : ascii) (s : str) : Z := find_from c s 0.

(** [s.rfind(c)]: the offset of the last [c], or -1.  [last] is the
    offset of the last [c] met so far. *)
Fixpoint rfind_from (c : ascii) (s : str) (i last : Z) : Z :=
  match s with
  | [] => last
  | x :: s' =>
      rfind_from c s' (i + 1)%Z (if Ascii.eqb x c then i else last)
  end.

Definition rfind_char (c : ascii) (s : str) : Z := rfind_from c s 0 (-1).

(** [s.lstrip(chars)] and [s.strip(chars)]. *)
Fixpoint lstrip_chars (chars s : str) : str :=
  match s with
  | [] => []
  | c :: s' =>
      if existsb (Ascii.eqb c) chars then lstrip_chars chars s' else s
  end.

Definition strip_chars (chars s : str) : str :=
  rev (lstrip_chars chars (rev (lstrip_chars chars s))).

(** The two quote characters, the double one and the single one. *)
Definition quotes : str := [ascii_of_N 34; "'"%char].

(** A number of JSON that Python reads as a [float]. *)
Definition float_literal (literal : str) : bool :=
  existsb (fun c => existsb (Ascii.eqb c) (lit ".eENI")) literal.

(** [for x in v]: the items of a list, the keys of a dictionary, the
    characters of a string; the other values cannot be iterated. *)
Definition iterate (v : json) : Exception + list json :=
  match v with
  | JList l => inr l
  | JDict d => inr (map (fun kv => JString (fst kv)) d)
  | JString s => inr (map (fun c => JString [c]) s)
  | JNull => inl (TypeError (lit "'NoneType' object is not iterable"))
  | JBool _ => inl (TypeError (lit "'bool' object is not iterable"))
  | JNumber literal =>
      if float_literal literal
      then inl (TypeError (lit "'float' object is not iterable"))
      else inl (TypeError (lit "'int' object is not iterable"))
  end.

(** The records that the parsing of a reply logs. *)
Inductive ParseLog :=
| WarningNoJsonArray
| ErrorParseJson (e : Exception)
| DebugResponseContent (response_content : str)
| ErrorUnexpected (e : Exception).

(** The body of the loop over the items: what it appends for one item. *)
Definition valid_prompt (prompt : json) : list str :=
  match prompt with
  | JString s =>
      match strip s with
      | [] => []
      | _ =>
          let cleaned_prompt := strip_chars quotes (strip s) in
          if (5 <? len cleaned_prompt)%Z then [cleaned_prompt] else []
      end
  | _ => []
  end.

Definition _parse_prompts_response (env : Env.t) (response_content : str)
  : list ParseLog * list str :=
  let content := strip response_content in
  let start_idx := find_char "["%char content in
  let end_idx := (rfind_char "]"%char content + 1)%Z in
  if negb (start_idx =? -1)%Z && (start_idx <? end_idx)%Z
  then
    let json_content := slice content start_idx end_idx in
    match Env.json_loads env json_content with
    | inr prompts_data =>
        match iterate prompts_data with
        | inr items => ([], flat_map valid_prompt items)
        | inl e => ([ErrorUnexpected e], [])
        end
    | inl (JSONDecodeError msg) =>
        ([ErrorParseJson (JSONDecodeError msg);
          DebugResponseContent response_content], [])
    | inl e => ([ErrorUnexpected e], [])
    end
  else ([WarningNoJsonArray], []).

(* ================================================================== *)
(** ** Prompt generation: [generate_sector_prompts] and
       [validate_and_refine_prompts] of
       [app/services/prompt_generation.py] *)
(* ================================================================== *)

Module PromptCreate.
Record t := mk
  { content : str; is_auto_generated : bool; category : option str }.
End PromptCreate.

(** A request to the model.  The text of the prompt is a template filled
    from the user and from the values of [kind]; the request is
    represented by these and by the other arguments of the call. *)
Module PromptRequest.
Inductive kind :=
| Category (category : str) (prompts_per_category : Z)
| General (num_prompts : Z)
| Validation (prompts : list str).

Record t := mk
  { user : User.t;
    provider : LLMProvider;
    model : str;
    api_key : str;
    what : kind;
    max_tokens : Z }.
End PromptRequest.

(** The records that the prompt generation logs. *)
Inductive PromptLog :=
| ParseRecord (r : ParseLog)
| ErrorCategoryFailed (category : str) (e : Exception)
| ErrorGeneralFailed (e : Exception)
| ErrorValidationFailed (e : Exception)
| InfoGenerated (count : Z) (business_name : str).

(** [self._parse_prompts_response(response["content"])], where the
    content of a reply may be [None]; the attribute error of [None.strip]
    is caught like any other. *)
Definition parse_reply (env : Env.t) (content : option str)
  : list ParseLog * list str :=
  match content with
  | Some response_content => _parse_prompts_response env response_content
  | None =>
      ([ErrorUnexpected
          (OtherException
             (lit "'NoneType' object has no attribute 'strip'"))], [])
  end.

Definition prompt_categories : list str := map lit
  [ "local_search"; "comparison"; "recommendations"; "reviews";
    "services"; "pricing"; "location_specific"; "problem_solving";
    "alternatives"; "quality_questions" ]%string.

Section PromptGeneration.
Variable env : Env.t.
(** [llm_service.generate_response(...)["content"]]. *)
Variable ask : PromptRequest.t -> Exception + option str.

Definition _generate_category_prompts (user : User.t) (category : str)
    (api_key : str) (provider : LLMProvider) (model : str)
    (prompts_per_category : Z) : list PromptLog * list PromptCreate.t :=
  match ask (PromptRequest.mk user provider model api_key
               (PromptRequest.Category category prompts_per_category)
               1000) with
  | inr content =>
      let '(records, prompts_data) := parse_reply env content in
      (map ParseRecord records,
       map (fun prompt_text =>
              PromptCreate.mk prompt_text true (Some category))
           prompts_data)
  | inl e => ([ErrorCategoryFailed category e], [])
  end.

Definition _generate_general_prompts (user : User.t) (api_key : str)
    (provider : LLMProvider) (model : str) (num_prompts : Z)
  : list PromptLog * list PromptCreate.t :=
  match ask (PromptRequest.mk user provider model api_key
               (PromptRequest.General num_prompts) 800) with
  | inr content =>
      let '(records, prompts_data) := parse_reply env content in
      (map ParseRecord records,
       map (fun prompt_text =>
              PromptCreate.mk prompt_text true (Some (lit "general")))
           prompts_data)
  | inl e => ([ErrorGeneralFailed e], [])
  end.

(** The loop over the categories; the state is the log and
    [all_prompts]. *)
Definition category_step (user : User.t) (api_key : str)
    (provider : LLMProvider) (model : str) (max_prompts : Z)
    (st : list PromptLog * list PromptCreate.t) (category : str)
  : list PromptLog * list PromptCreate.t :=
  let '(logs, all_prompts) := st in
  let '(records, category_prompts) :=
    _generate_category_prompts user category api_key provider model
      (max_prompts / len prompt_categories)%Z in
  (logs ++ records, all_prompts ++ category_prompts).

(** No call of the body raises (each helper catches every exception),
    so that the handler of [generate_sector_prompts] is never run. *)
Definition generate_sector_prompts (user : User.t) (api_key : str)
    (provider : LLMProvider) (model : option str) (max_prompts : Z)
  : list PromptLog * list PromptCreate.t :=
  let model :=
    match model with
    | Some (c :: m) => c :: m
    | _ =>
        match provider with
        | OPENAI => lit "gpt-4"
        | ANTHROPIC => lit "claude-3-sonnet"
        | GEMINI => lit "gemini-pro"
        end
    end in
  let '(logs, all_prompts) :=
    fold_left (category_step user api_key provider model max_prompts)
              prompt_categories ([], []) in
  let '(logs, all_prompts) :=
    if (len all_prompts <? max_prompts)%Z
    then
      let '(records, additional_prompts) :=
        _generate_general_prompts user api_key provider model
          (max_prompts - len all_prompts)%Z in
      (logs ++ records, all_prompts ++ additional_prompts)
    else (logs, all_prompts) in
  let all_prompts := slice all_prompts 0 max_prompts in
  (logs ++ [InfoGenerated (len all_prompts) (User.business_name user)],
   all_prompts).

Definition validate_and_refine_prompts (prompts : list str)
    (user : User.t) (api_key : str) (provider : LLMProvider)
    (model : option str) : list PromptLog * list PromptCreate.t :=
  let model :=
    match model with
    | Some (c :: m) => c :: m
    | _ =>
        match provider with
        | OPENAI => lit "gpt-3.5-turbo"
        | _ => lit "claude-3-haiku"
        end
    end in
  match ask (PromptRequest.mk user provider model api_key
               (PromptRequest.Validation prompts) 1200) with
  | inr content =>
      let '(records, validated_prompts_data) :=
        parse_reply env content in
      (map ParseRecord records,
       map (fun prompt_text =>
              PromptCreate.mk prompt_text true (Some (lit "validated")))
           validated_prompts_data)
  | inl e =>
      ([ErrorValidationFailed e],
       map (fun p => PromptCreate.mk p true (Some (lit "unvalidated")))
           prompts)
  end.
End PromptGeneration.

(* ================================================================== *)
(** ** Response generation: [LLMService.batch_generate_responses] of
       [app/services/llm_service.py] *)
(* ================================================================== *)

Module LLMConfiguration.
Record t := mk { provider : LLMProvider; model : str; is_active : bool }.
End LLMConfiguration.

Module Generation.
(** The arguments of one call of [generate_response]. *)
Record call := mk_call
  { provider : LLMProvider;
    model : str;
    prompt : str;
    api_key : str;
    system_message : option str }.

(** The records that the generation logs. *)
Inductive log :=
| WarningNoApiKey (provider : LLMProvider)
| ErrorGenerating (provider : LLMProvider) (model : str) (e : Exception)
| ErrorResponseFailed (e : Exception)
| ErrorBatchFailed (e : Exception).
End Generation.

(** [LLMService.generate_response], for any behaviour [answer] of the
    client of the provider: an exception is logged and raised again. *)
Definition generate_response {R} (answer : Generation.call -> Exception + R)
    (c : Generation.call) : list Generation.log * (Exception + R) :=
  match answer c with
  | inr response => ([], inr response)
  | inl e =>
      ([Generation.ErrorGenerating (Generation.provider c)
          (Generation.model c) e], inl e)
  end.

(** The body of the loop over the configurations; the state is the log
    and the list of tasks. *)
Definition task_step (prompt : str) (api_keys : LLMProvider -> option str)
    (iterations : Z) (system_message : option str)
    (st : list Generation.log * list Generation.call)
    (config : LLMConfiguration.t)
  : list Generation.log * list Generation.call :=
  let '(logs, tasks) := st in
  if negb (LLMConfiguration.is_active config) then (logs, tasks)
  else
    let api_key := api_keys (LLMConfiguration.provider config) in
    if negb (truthy api_key)
    then (logs ++ [Generation.WarningNoApiKey
                     (LLMConfiguration.provider config)], tasks)
    else
      (logs,
       fold_left
         (fun tasks _ =>
            tasks ++ [Generation.mk_call
                        (LLMConfiguration.provider config)
                        (LLMConfiguration.model config)
                        prompt
                        (match api_key with Some key => key | None => [] end)
                        system_message])
         (seq 0 (Z.to_nat iterations)) tasks).

(** The loop over the gathered results. *)
Definition keep_response {R}
    (st : list Generation.log * list R)
    (result : list Generation.log * (Exception + R))
  : list Generation.log * list R :=
  let '(logs, successful_responses) := st in
  match snd result with
  | inl e => (logs ++ [Generation.ErrorResponseFailed e],
              successful_responses)
  | inr response => (logs, successful_responses ++ [response])
  end.

(** [answers i] is the behaviour of the client in the task of rank [i];
    the tasks are gathered with [return_exceptions=True], so that the
    gathering does not raise. *)
Definition batch_generate_responses {R}
    (answers : nat -> Generation.call -> Exception + R)
    (configurations : list LLMConfiguration.t) (prompt : str)
    (api_keys : LLMProvider -> option str) (iterations : Z)
    (system_message : option str)
  : list Generation.log * (Exception + list R) :=
  let '(warnings, tasks) :=
    fold_left (task_step prompt api_keys iterations system_message)
              configurations ([], []) in
  let responses :=
    map (fun '(i, c) => generate_response (answers i) c)
        (combine (seq 0 (length tasks)) tasks) in
  let '(errors, successful_responses) :=
    fold_left keep_response responses ([], []) in
  (warnings ++ concat (map fst responses) ++ errors,
   inr successful_responses).

(* ================================================================== *)
(** ** Vocabulary of the properties *)
(* ================================================================== *)

(** No two adjacent whitespace characters. *)
Fixpoint no_double_ws (s : str) : bool :=
  match s with
  | c1 :: ((c2 :: _) as s') =>
      negb (isspace c1 && isspace c2) && no_double_ws s'
  | _ => true
  end.

(** A character that the normalizer leaves in place inside a word. *)
Definition stable_char (c : ascii) : bool :=
  negb (isspace c) && Re.keeps c && Ascii.eqb (lower_char c) c.

(** A word that survives the normalizer unchanged. *)
Definition stable_word (w : str) : bool :=
  keep_word w && forallb stable_char w.

(** A task raised. *)
Definition raised {A} (m : Py A) : bool :=
  match outcome m with inl _ => true | inr _ => false end.

(** The values returned by the tasks that did not raise, in the order of
    the tasks. *)
Fixpoint returned {A} (ms : list (Py A)) : list A :=
  match ms with
  | [] => []
  | m :: ms' =>
      match outcome m with
      | inl _ => returned ms'
      | inr a => a :: returned ms'
      end
  end.

Definition is_batch_item_failure (r : LogRecord) : bool :=
  match r with ErrorBatchItemFailed _ => true | _ => false end.

(** The response of a record can be found. *)
Definition resolved (llm_responses : list LLMResponse.t)
    (result : AnalyticsResult.t) : bool :=
  match find_response llm_responses result with
  | Some _ => true
  | None => false
  end.

Definition provider_eqb (a b : LLMProvider) : bool :=
  match a, b with
  | OPENAI, OPENAI | ANTHROPIC, ANTHROPIC | GEMINI, GEMINI => true
  | _, _ => false
  end.

(** The response of a record can be found and comes from the given
    provider and model. *)
Definition produced_by (llm_responses : list LLMResponse.t)
    (provider : LLMProvider) (model : str) (result : AnalyticsResult.t)
  : bool :=
  match find_response llm_responses result with
  | Some r =>
      provider_eqb (LLMResponse.provider r) provider
      && str_eqb (LLMResponse.model r) model
  | None => false
  end.

(** The key under which the grouping loop files a record. *)
Definition key_of (llm_responses : list LLMResponse.t)
    (result : AnalyticsResult.t) : option str :=
  match find_response llm_responses result with
  | Some r => Some (model_key_of (LLMResponse.provider r)
                                 (LLMResponse.model r))
  | None => None
  end.

Definition in_group (llm_responses : list LLMResponse.t) (k : str)
    (result : AnalyticsResult.t) : bool :=
  match key_of llm_responses result with
  | Some k' => str_eqb k' k
  | None => false
  end.

(** The group filed under a key, empty when the key is absent. *)
Definition group_of (d : Dict.t (list AnalyticsResult.t)) (k : str)
  : list AnalyticsResult.t :=
  match Dict.get d k with Some g => g | None => [] end.

(** The number of records filed in all the groups. *)
Definition group_sizes (d : Dict.t (list AnalyticsResult.t)) : Z :=
  sum (map (fun g => len g) (Dict.values d)).

(** The exceptions of the tasks that raised, in the order of the tasks. *)
Fixpoint failures {A} (ms : list (Py A)) : list Exception :=
  match ms with
  | [] => []
  | m :: ms' =>
      match outcome m with
      | inl e => e :: failures ms'
      | inr _ => failures ms'
      end
  end.

(** The owner is mentioned in the response of the record. *)
Definition mentions_owner (r : AnalyticsResult.t) : bool :=
  (0 <? AnalyticsResult.user_brand_mentions r)%Z.

(** The count of one brand in the lower-cased content of a response. *)
Definition count_in (llm_response : LLMResponse.t) (brand_name : str) : Z :=
  Mentions.mention_count
    (_count_brand_mentions
       (lower (LLMResponse.response_content llm_response)) brand_name).

(** The prompt sent for the enrichment of a response. *)
Definition enrichment_prompt (user : User.t)
    (competitors : list Competitor.t) (llm_response : LLMResponse.t)
  : AnalysisPrompt.t :=
  analysis_prompt user (map Competitor.name competitors)
                  (LLMResponse.response_content llm_response).

(** The record of a response whose metadata is given: what the analysis
    computes without the help of a model. *)
Definition deterministic_record (user : User.t)
    (competitors : list Competitor.t) (llm_response : LLMResponse.t)
    (metadata : option (Dict.t json)) : AnalyticsResult.t :=
  let response_content :=
    lower (LLMResponse.response_content llm_response) in
  let user_brand_mentions :=
    _count_brand_mentions response_content (User.business_name user) in
  let st :=
    fold_left (competitor_step response_content) competitors
              (Dict.empty Z, []) in
  AnalyticsResult.mk
    []
    (User.id user)
    (LLMResponse.prompt_id llm_response)
    (LLMResponse.id llm_response)
    (Mentions.mention_count user_brand_mentions)
    (fst st)
    (Mentions.mention_count user_brand_mentions + sum (Dict.values (fst st)))
    ((if (0 <? Mentions.mention_count user_brand_mentions)%Z
      then [BrandMention.mk (User.business_name user)
              (Mentions.mention_count user_brand_mentions)
              (Mentions.mention_positions user_brand_mentions)
              (Mentions.context_snippets user_brand_mentions)]
      else []) ++ snd st)
    metadata
    (LLMResponse.created_at llm_response).

(** The deterministic counts of a record. *)
Definition counts (r : AnalyticsResult.t) : Z * Dict.t Z * Z :=
  (AnalyticsResult.user_brand_mentions r,
   AnalyticsResult.competitor_mentions r,
   AnalyticsResult.total_mentions r).

(** The analysis of a response with enrichment returns a record that
    carries [fallback] as its metadata and has the counts and the evidence
    of the analysis without enrichment. *)
Definition degrades_to (env : Env.t) (user : User.t)
    (competitors : list Competitor.t) (llm_response : LLMResponse.t)
    (key : str) (fallback : Dict.t json) : Prop :=
  exists r r0,
    outcome (analyze_response env user competitors llm_response
                              (Some key) true) = inr r
    /\ outcome (analyze_response env user competitors llm_response
                                 (Some key) false) = inr r0
    /\ AnalyticsResult.analysis_metadata r = Some fallback
    /\ counts r = counts r0
    /\ AnalyticsResult.mention_details r = AnalyticsResult.mention_details r0.

(* ================================================================== *)
(** ** Sample data *)
(* ================================================================== *)

Module Sample.

Definition user (business_name : string) : User.t :=
  User.mk (lit "u1") (lit business_name) (lit "food") (lit "Paris").

Definition competitor (name : string) : Competitor.t :=
  Competitor.mk (lit "c1") (lit name).

Definition response (id : string) (provider : LLMProvider)
    (model content : string) : LLMResponse.t :=
  LLMResponse.mk (lit id) (lit "u1") (lit "p1") provider (lit model)
                 (lit content) 0.

(** A record with the given response and owner count. *)
Definition record (response_id : string) (user_brand_mentions : Z)
  : AnalyticsResult.t :=
  AnalyticsResult.mk [] (lit "u1") (lit "p1") (lit response_id)
    user_brand_mentions [] user_brand_mentions [] (Some []) 0.

(** The scenario of the specification: one owner, one competitor. *)
Definition joe : User.t := user "Joe's Pizza".
Definition pizza_hut : Competitor.t := competitor "Pizza Hut".
Definition praise : LLMResponse.t :=
  response "r1" OPENAI "gpt-4"
    "Joe's Pizza is great, better than Pizza Hut and Pizza Hut again.".

(** A model whose reply is not JSON, and one whose call fails. *)
Definition env_garbled : Env.t :=
  Env.mk (fun _ _ => inr (Some (lit "not json")))
         (fun _ => inl (JSONDecodeError (lit "Expecting value")))
         (fun _ => inl (TypeError (lit "not a mapping"))).

Definition env_down : Env.t :=
  Env.mk (fun _ _ => inl (OtherException (lit "connection refused")))
         (fun _ => inl (JSONDecodeError (lit "Expecting value")))
         (fun _ => inl (TypeError (lit "not a mapping"))).

(** Forty-nine letters, the brand between two spaces, forty-nine
    letters: 105 characters. *)
Definition long_text : str :=
  repeat "x"%char 49 ++ lit " pizza " ++ repeat "x"%char 49.

(** Four records whose owner counts are 1, 0, 2 and 0. *)
Definition four_records : list AnalyticsResult.t :=
  [record "r1" 1; record "r2" 0; record "r3" 2; record "r4" 0].

(** Three responses, the second one from the provider on which [flaky]
    fails. *)
Definition three_responses : list LLMResponse.t :=
  [ LLMResponse.mk (lit "r1") (lit "u1") (lit "p1") OPENAI (lit "gpt-4")
                   (lit "first") 1;
    LLMResponse.mk (lit "r2") (lit "u1") (lit "p1") GEMINI (lit "pro")
                   (lit "second") 2;
    LLMResponse.mk (lit "r3") (lit "u1") (lit "p1") ANTHROPIC (lit "opus")
                   (lit "third") 3 ].

(** An analysis that fails on the responses of one provider. *)
Definition flaky (r : LLMResponse.t) : Py Z :=
  match LLMResponse.provider r with
  | GEMINI => raise (OtherException (lit "boom"))
  | _ => ret (LLMResponse.created_at r)
  end.

End Sample.

(* ================================================================== *)
(** ** Vocabulary of the further properties *)
(* ================================================================== *)

(** Each position is at least [gap] after the one before it. *)
Fixpoint apart (gap : Z) (ps : list Z) : bool :=
  match ps with
  | p :: ((q :: _) as ps') => (p + gap <=? q)%Z && apart gap ps'
  | _ => true
  end.

(** The evidence kept for one brand: one entry when the brand has a
    mention, none otherwise. *)
Definition evidence (response_content brand_name : str)
  : list BrandMention.t :=
  let mentions := _count_brand_mentions response_content brand_name in
  if (0 <? Mentions.mention_count mentions)%Z
  then [BrandMention.mk brand_name
          (Mentions.mention_count mentions)
          (Mentions.mention_positions mentions)
          (Mentions.context_snippets mentions)]
  else [].

(** The entries recorded under a name in the dictionaries of a sequence
    of records, in order. *)
Definition entries_named (k : str)
    (analytics_results : list AnalyticsResult.t) : list (str * Z) :=
  filter (fun kv => str_eqb (fst kv) k)
         (concat (map (fun r =>
                         Dict.items (AnalyticsResult.competitor_mentions r))
                      analytics_results)).

(** The body of the loop that fills the counter. *)
Definition tally (acc : Counter.t) (kv : str * Z) : Counter.t :=
  let '(competitor, count) := kv in Counter.add acc competitor count.

(** The total that a counter has for a name, zero when it has none. *)
Definition running (c : Counter.t) (k : str) : Z :=
  match Dict.get c k with Some v => v | None => 0%Z end.


(** What the parsing of a reply gives once the parser has answered. *)
Definition after_loading (response_content : str)
    (loaded : Exception + json) : list ParseLog * list str :=
  match loaded with
  | inr prompts_data =>
      match iterate prompts_data with
      | inr items => ([], flat_map valid_prompt items)
      | inl e => ([ErrorUnexpected e], [])
      end
  | inl (JSONDecodeError msg) =>
      ([ErrorParseJson (JSONDecodeError msg);
        DebugResponseContent response_content], [])
  | inl e => ([ErrorUnexpected e], [])
  end.

(** The string neither begins nor ends with a quote character. *)
Definition unquoted (s : str) : bool :=
  match s with
  | [] => true
  | c :: _ => negb (existsb (Ascii.eqb c) quotes)
  end
  && match rev s with
     | [] => true
     | c :: _ => negb (existsb (Ascii.eqb c) quotes)
     end.

(** A configuration for which calls are made: active, with a key. *)
Definition usable (api_keys : LLMProvider -> option str)
    (config : LLMConfiguration.t) : bool :=
  LLMConfiguration.is_active config
  && truthy (api_keys (LLMConfiguration.provider config)).

(** An active configuration without a key. *)
Definition keyless (api_keys : LLMProvider -> option str)
    (config : LLMConfiguration.t) : bool :=
  LLMConfiguration.is_active config
  && negb (truthy (api_keys (LLMConfiguration.provider config))).

(** The call made for a configuration. *)
Definition call_of (prompt : str) (api_keys : LLMProvider -> option str)
    (system_message : option str) (config : LLMConfiguration.t)
  : Generation.call :=
  Generation.mk_call
    (LLMConfiguration.provider config) (LLMConfiguration.model config)
    prompt
    (match api_keys (LLMConfiguration.provider config) with
     | Some key => key
     | None => []
     end)
    system_message.

(** The responses of the calls that were answered, in the order of the
    calls; [i] is the rank of the first call. *)
Fixpoint answered {R} (answers : nat -> Generation.call -> Exception + R)
    (i : nat) (calls : list Generation.call) : list R :=
  match calls with
  | [] => []
  | c :: calls' =>
      match answers i c with
      | inr r => r :: answered answers (S i) calls'
      | inl _ => answered answers (S i) calls'
      end
  end.

(** The exceptions of the calls that failed, in the order of the calls. *)
Fixpoint refused {R} (answers : nat -> Generation.call -> Exception + R)
    (i : nat) (calls : list Generation.call) : list Exception :=
  match calls with
  | [] => []
  | c :: calls' =>
      match answers i c with
      | inr _ => refused answers (S i) calls'
      | inl e => e :: refused answers (S i) calls'
      end
  end.

(** The error records of the failed calls: those of the calls
    themselves. *)
Fixpoint refusals {R} (answers : nat -> Generation.call -> Exception + R)
    (i : nat) (calls : list Generation.call) : list Generation.log :=
  match calls with
  | [] => []
  | c :: calls' =>
      match answers i c with
      | inr _ => refusals answers (S i) calls'
      | inl e =>
          Generation.ErrorGenerating (Generation.provider c)
                                     (Generation.model c) e
          :: refusals answers (S i) calls'
      end
  end.

(** A prompt as the generation makes them: marked as generated, filed
    under one of the given categories, with a clean content. *)
Definition generated_prompt (categories : list str) (p : PromptCreate.t)
  : Prop :=
  PromptCreate.is_auto_generated p = true
  /\ (exists c, PromptCreate.category p = Some c /\ In c categories)
  /\ (5 < len (PromptCreate.content p))%Z
  /\ unquoted (PromptCreate.content p) = true.

(** The request that [validate_and_refine_prompts] sends. *)
Definition validation_request (prompts : list str) (user : User.t)
    (api_key : str) (provider : LLMProvider) (model : option str)
  : PromptRequest.t :=
  PromptRequest.mk user provider
    (match model with
     | Some (c :: m) => c :: m
     | _ => match provider with
            | OPENAI => lit "gpt-3.5-turbo"
            | _ => lit "claude-3-haiku"
            end
     end)
    api_key (PromptRequest.Validation prompts) 1200.


(** A list of numbers that never grows. *)
Fixpoint descending (l : list Z) : bool :=
  match l with
  | a :: ((b :: _) as l') => (b <=? a)%Z && descending l'
  | _ => true
  end.

(* ================================================================== *)
(** ** Characters and strings *)
(* ================================================================== *)

Unset Implicit Arguments.

Ltac each_char c :=
  destruct c as [[] [] [] [] [] [] [] []]; vm_compute; try reflexivity;
  try discriminate; auto.

Lemma lower_char_idem (c : ascii) : lower_char (lower_char c) = lower_char c.
Proof. each_char c. Qed.

Lemma space_keeps : Re.keeps space = true.
Proof. reflexivity. Qed.

Lemma isspace_keeps (c : ascii) : isspace c = true -> Re.keeps c = true.
Proof. unfold Re.keeps. intros ->. now rewrite orb_true_r. Qed.

Lemma str_eqb_refl (a : str) : str_eqb a a = true.
Proof.
  induction a as [|x a IH]; simpl; [reflexivity|].
  now rewrite Ascii.eqb_refl.
Qed.

Lemma str_eqb_eq (a b : str) : str_eqb a b = true <-> a = b.
Proof.
  split.
  - revert b. induction a as [|x a IH]; intros [|y b]; simpl;
      try discriminate; [reflexivity|].
    intros H. apply andb_true_iff in H as [Hx Hab].
    apply Ascii.eqb_eq in Hx. subst y. f_equal. now apply IH.
  - intros ->. apply str_eqb_refl.
Qed.

Lemma str_eqb_neq (a b : str) : str_eqb a b = false <-> a <> b.
Proof.
  split.
  - intros H E. apply str_eqb_eq in E. congruence.
  - intros H. destruct (str_eqb a b) eqn:E; [|reflexivity].
    apply str_eqb_eq in E. contradiction.
Qed.

Lemma str_eqb_sym (a b : str) : str_eqb a b = str_eqb b a.
Proof.
  destruct (str_eqb a b) eqn:E.
  - apply str_eqb_eq in E. subst. symmetry. apply str_eqb_refl.
  - symmetry. apply str_eqb_neq. apply str_eqb_neq in E. congruence.
Qed.

Lemma lstrip_length (s : str) : (length (lstrip s) <= length s)%nat.
Proof.
  induction s as [|c s IH]; simpl; [lia|].
  destruct (isspace c); simpl; lia.
Qed.

Lemma strip_length (s : str) : (length (strip s) <= length s)%nat.
Proof.
  unfold strip, rstrip. rewrite length_rev.
  etransitivity; [apply lstrip_length|].
  rewrite length_rev. apply lstrip_length.
Qed.

Lemma lstrip_Forall (P : ascii -> Prop) (s : str) :
  Forall P s -> Forall P (lstrip s).
Proof.
  induction 1 as [|c s Hc Hs IH]; simpl; [constructor|].
  destruct (isspace c); [assumption|]. now constructor.
Qed.

Lemma strip_Forall (P : ascii -> Prop) (s : str) :
  Forall P s -> Forall P (strip s).
Proof.
  intros H. unfold strip, rstrip.
  apply Forall_rev, lstrip_Forall, Forall_rev, lstrip_Forall, H.
Qed.

Lemma lstrip_fixed (c : ascii) (s : str) :
  isspace c = false -> lstrip (c :: s) = c :: s.
Proof. intros H. simpl. now rewrite H. Qed.

Lemma rstrip_fixed (c : ascii) (s : str) :
  isspace c = false -> rstrip (s ++ [c]) = s ++ [c].
Proof.
  intros H. unfold rstrip. rewrite rev_app_distr. simpl.
  rewrite H. simpl. now rewrite rev_involutive.
Qed.

(** *** Splitting and joining *)

Lemma split_from_Forall (P : ascii -> Prop) (s cur : str) :
  Forall P cur ->
  Forall (fun c => isspace c = false -> P c) s ->
  Forall (Forall P) (split_from cur s).
Proof.
  revert cur. induction s as [|c s IH]; intros cur Hcur Hs; simpl.
  - destruct cur; [constructor|].
    constructor; [assumption|constructor].
  - inversion Hs as [|? ? Hc Hs']; subst.
    destruct (isspace c) eqn:Ec.
    + destruct cur; [apply IH; auto|].
      constructor; [assumption|]. apply IH; auto.
    + apply IH; [|assumption].
      apply Forall_app. split; [assumption|]. constructor; auto.
Qed.

Lemma split_from_word (w s cur : str) :
  forallb stable_char w = true ->
  split_from cur (w ++ s) = split_from (cur ++ w) s.
Proof.
  revert cur. induction w as [|c w IH]; intros cur H; simpl.
  - now rewrite app_nil_r.
  - simpl in H. apply andb_true_iff in H as [Hc Hw].
    unfold stable_char in Hc.
    destruct (isspace c); [discriminate|].
    rewrite IH by assumption. now rewrite <- app_assoc.
Qed.

Lemma stable_word_nonempty (w : str) : stable_word w = true -> w <> [].
Proof.
  intros H ->. unfold stable_word, keep_word in H.
  rewrite !andb_true_iff in H. destruct H as [[[_ _] H] _]. discriminate.
Qed.

Lemma split_from_space (cur s : str) :
  cur <> [] -> split_from cur (space :: s) = cur :: split_from [] s.
Proof. destruct cur; [contradiction|reflexivity]. Qed.

Lemma split_from_end (cur : str) : cur <> [] -> split_from cur [] = [cur].
Proof. destruct cur; [contradiction|reflexivity]. Qed.

Lemma split_join (ws : list str) :
  forallb stable_word ws = true -> split (join [space] ws) = ws.
Proof.
  unfold split. induction ws as [|w ws IH]; intros H; [reflexivity|].
  simpl in H. apply andb_true_iff in H as [Hw Hws].
  pose proof (stable_word_nonempty _ Hw) as Hne.
  assert (Hchars : forallb stable_char w = true).
  { unfold stable_word in Hw. now apply andb_true_iff in Hw as [_ ?]. }
  destruct ws as [|w' ws].
  - simpl. rewrite <- (app_nil_r w) at 1.
    rewrite split_from_word by assumption.
    now apply split_from_end.
  - change (join [space] (w :: w' :: ws))
      with (w ++ space :: join [space] (w' :: ws)).
    rewrite split_from_word by assumption.
    rewrite app_nil_l, split_from_space by assumption.
    now rewrite IH.
Qed.

Lemma lower_fixed (s : str) :
  Forall (fun c => lower_char c = c) s -> lower s = s.
Proof.
  unfold lower. induction 1 as [|c s Hc _ IH]; simpl; [reflexivity|].
  now rewrite Hc, IH.
Qed.

Lemma sub_punct_fixed (s : str) :
  Forall (fun c => Re.keeps c = true) s -> Re.sub_punct s = s.
Proof.
  unfold Re.sub_punct. induction 1 as [|c s Hc _ IH]; simpl; [reflexivity|].
  now rewrite Hc, IH.
Qed.

Lemma stable_char_spec (c : ascii) :
  stable_char c = true ->
  isspace c = false /\ Re.keeps c = true /\ lower_char c = c.
Proof.
  unfold stable_char. rewrite !andb_true_iff, negb_true_iff, Ascii.eqb_eq.
  tauto.
Qed.

(** The characters of a joined list of stable words are spaces or stable
    characters. *)
Lemma join_chars (P : ascii -> Prop) (ws : list str) :
  P space ->
  (forall c, stable_char c = true -> P c) ->
  forallb stable_word ws = true ->
  Forall P (join [space] ws).
Proof.
  intros Hsp HP. induction ws as [|w ws IH]; intros H; [constructor|].
  simpl in H. apply andb_true_iff in H as [Hw Hws].
  assert (Hchars : Forall P w).
  { unfold stable_word in Hw. apply andb_true_iff in Hw as [_ Hw].
    rewrite forallb_forall in Hw. apply Forall_forall. auto. }
  destruct ws as [|w' ws]; [exact Hchars|].
  change (join [space] (w :: w' :: ws))
    with (w ++ [space] ++ join [space] (w' :: ws)).
  apply Forall_app. split; [assumption|].
  constructor; [assumption|]. now apply IH.
Qed.

(** A joined list of stable words starts and ends with a character that
    is not whitespace. *)
Lemma join_first (w : str) (ws : list str) :
  forallb stable_word (w :: ws) = true ->
  exists c s, join [space] (w :: ws) = c :: s /\ isspace c = false.
Proof.
  intros H. simpl in H. apply andb_true_iff in H as [Hw _].
  pose proof (stable_word_nonempty _ Hw) as Hne.
  destruct w as [|c w]; [contradiction|].
  unfold stable_word in Hw. apply andb_true_iff in Hw as [_ Hw].
  simpl in Hw. apply andb_true_iff in Hw as [Hc _].
  apply stable_char_spec in Hc as [Hc _].
  destruct ws; simpl; eauto.
Qed.

Lemma join_last (w : str) (ws : list str) :
  forallb stable_word (w :: ws) = true ->
  exists s c, join [space] (w :: ws) = s ++ [c] /\ isspace c = false.
Proof.
  revert w. induction ws as [|w' ws IH]; intros w H.
  - simpl in H. rewrite andb_true_r in H.
    pose proof (stable_word_nonempty _ H) as Hne.
    destruct (exists_last Hne) as [s [c ->]].
    exists s, c. split; [reflexivity|].
    unfold stable_word in H. apply andb_true_iff in H as [_ H].
    rewrite forallb_app in H. apply andb_true_iff in H as [_ H].
    simpl in H. rewrite andb_true_r in H.
    now apply stable_char_spec in H.
  - simpl in H. apply andb_true_iff in H as [_ H].
    destruct (IH w' H) as [s [c [E Hc]]].
    exists (w ++ [space] ++ s), c. split; [|assumption].
    change (join [space] (w :: w' :: ws))
      with (w ++ [space] ++ join [space] (w' :: ws)).
    rewrite E. now rewrite <- !app_assoc.
Qed.

Lemma strip_join (ws : list str) :
  forallb stable_word ws = true ->
  strip (join [space] ws) = join [space] ws.
Proof.
  intros H. destruct ws as [|w ws]; [reflexivity|].
  destruct (join_first _ _ H) as [c [s [E Hc]]].
  destruct (join_last _ _ H) as [s' [c' [E' Hc']]].
  unfold strip. rewrite E, lstrip_fixed by assumption.
  rewrite <- E, E'. now apply rstrip_fixed.
Qed.

(** The normalizer leaves a joined list of stable words unchanged. *)
Lemma clean_join (ws : list str) :
  forallb stable_word ws = true ->
  _clean_brand_name (join [space] ws) = join [space] ws.
Proof.
  intros H. unfold _clean_brand_name.
  rewrite lower_fixed.
  2:{ apply join_chars; [reflexivity| |assumption].
      intros c Hc. now apply stable_char_spec in Hc. }
  rewrite strip_join by assumption.
  rewrite sub_punct_fixed.
  2:{ apply join_chars; [reflexivity| |assumption].
      intros c Hc. now apply stable_char_spec in Hc. }
  rewrite split_join by assumption.
  f_equal. clear - H. induction ws as [|w ws IH]; [reflexivity|].
  simpl in H. apply andb_true_iff in H as [Hw Hws]. simpl.
  unfold stable_word in Hw. apply andb_true_iff in Hw as [Hk _].
  rewrite Hk. f_equal. now apply IH.
Qed.

(** The words that the normalizer keeps are stable. *)
Lemma kept_words_stable (brand_name : str) :
  forallb stable_word
    (filter keep_word
       (split (Re.sub_punct (strip (lower brand_name))))) = true.
Proof.
  apply forallb_forall. intros w Hw. apply filter_In in Hw as [Hin Hk].
  unfold stable_word. rewrite Hk. simpl.
  assert (H : Forall (Forall (fun c => stable_char c = true))
                (split (Re.sub_punct (strip (lower brand_name))))).
  { apply split_from_Forall; [constructor|].
    unfold Re.sub_punct. apply Forall_map.
    apply strip_Forall. unfold lower. apply Forall_map.
    apply Forall_forall. intros c _.
    generalize (lower_char_idem c). generalize (lower_char c).
    clear. intros d Hd.
    unfold stable_char. destruct (Re.keeps d) eqn:Ek.
    - intros Hs. now rewrite Hs, Ek, Hd, Ascii.eqb_refl.
    - intros Hs. exfalso. revert Hs. vm_compute. discriminate. }
  rewrite Forall_forall in H. specialize (H w Hin).
  apply forallb_forall. now apply Forall_forall.
Qed.

(** C9: the name normalizer is idempotent: normalizing a normalized name
    changes nothing, for every input string. *)
Theorem clean_brand_name_idempotent (brand_name : str) :
  _clean_brand_name (_clean_brand_name brand_name)
  = _clean_brand_name brand_name.
Proof.
  unfold _clean_brand_name at 2 3.
  apply clean_join, kept_words_stable.
Qed.

(* ================================================================== *)
(** ** Mention matcher *)
(* ================================================================== *)

(** C4: a brand whose normalized name has fewer than two characters gets
    the zero evidence (count 0, no position, no snippet) whatever the
    text is; the matcher returns this value and raises nothing. *)
Theorem unmatchable_brand_zero (text brand_name : str) :
  (len (_clean_brand_name brand_name) < 2)%Z ->
  _count_brand_mentions text brand_name = Mentions.zero.
Proof.
  intros H. unfold _count_brand_mentions.
  apply Z.ltb_lt in H. rewrite H, orb_true_r. reflexivity.
Qed.

Lemma unmatchable_brand_zero_witness :
  (len (_clean_brand_name (lit "A & Co")) < 2)%Z
  /\ _count_brand_mentions (lit "a & co is the best") (lit "A & Co")
     = Mentions.zero.
Proof.
  split; [reflexivity|].
  apply (unmatchable_brand_zero (lit "a & co is the best") (lit "A & Co")).
  reflexivity.
Defined.

(** Every offset that the scan reports is one at which the pattern
    matches. *)
Lemma scan_match_at (name text : str) (offsets : list nat) (resume : nat) :
  Forall (fun i => Re.match_at name text i = true)
         (Re.scan name text offsets resume).
Proof.
  revert resume. induction offsets as [|i rest IH]; intros resume; simpl.
  - constructor.
  - destruct ((resume <=? i)%nat && Re.match_at name text i) eqn:E.
    + apply andb_true_iff in E as [_ E]. constructor; [assumption|apply IH].
    + apply IH.
Qed.

(** Every offset that the scan reports is one of the offsets tried. *)
Lemma scan_bounds (name text : str) (offsets : list nat) (resume : nat) :
  Forall (fun i => In i offsets) (Re.scan name text offsets resume).
Proof.
  revert resume. induction offsets as [|i rest IH]; intros resume; simpl.
  - constructor.
  - destruct ((resume <=? i)%nat && Re.match_at name text i).
    + constructor; [now left|].
      eapply Forall_impl; [|apply IH]. intros; now right.
    + eapply Forall_impl; [|apply IH]. intros; now right.
Qed.

(** The claim of the specification on the name "Cafe" fails: "cafe" is
    one of the suffixes that the normalizer removes, so the name is
    unmatchable and "Best Cafe in town" has no mention of it, lower-cased
    or not. *)
Lemma cafe_in_town_not_counted :
  Mentions.mention_count
    (_count_brand_mentions (lower (lit "Best Cafe in town")) (lit "Cafe"))
  <> 1%Z
  /\ Mentions.mention_count
       (_count_brand_mentions (lit "Best Cafe in town") (lit "Cafe"))
     <> 1%Z.
Proof. split; vm_compute; discriminate. Qed.

(** C2, amended: the name "Cafe" has no mention in "cafeteria" and none
    in "Best Cafe in town" either, because its normalized form is empty.
    Matching never crosses a token boundary: for every text and brand,
    each reported position is an offset of the text at which the
    normalized name occurs between two word boundaries; so "Java" has no
    mention in "javascript" and exactly one in "best java in town". *)
Theorem word_boundary_matching :
  Mentions.mention_count
    (_count_brand_mentions (lit "cafeteria") (lit "Cafe")) = 0%Z
  /\ Mentions.mention_count
       (_count_brand_mentions (lower (lit "Best Cafe in town")) (lit "Cafe"))
     = 0%Z
  /\ Mentions.mention_count
       (_count_brand_mentions (lit "javascript") (lit "Java")) = 0%Z
  /\ Mentions.mention_count
       (_count_brand_mentions (lower (lit "Best Java in town")) (lit "Java"))
     = 1%Z
  /\ forall text brand_name : str,
       Forall
         (fun p =>
            (0 <= p <= len text)%Z
            /\ Re.boundary text (Z.to_nat p) = true
            /\ Re.literal_prefix (_clean_brand_name brand_name)
                 (skipn (Z.to_nat p) text) = true
            /\ Re.boundary text
                 (Z.to_nat p + length (_clean_brand_name brand_name)) = true)
         (Mentions.mention_positions
            (_count_brand_mentions text brand_name)).
Proof.
  repeat (split; [reflexivity|]).
  intros text brand_name. unfold _count_brand_mentions.
  destruct (_ || _); simpl; [constructor|].
  apply Forall_map. unfold Re.finditer.
  pose proof (scan_match_at (_clean_brand_name brand_name) text
                (seq 0 (S (length text))) 0) as Hm.
  pose proof (scan_bounds (_clean_brand_name brand_name) text
                (seq 0 (S (length text))) 0) as Hb.
  rewrite Forall_forall in *. intros i Hi.
  specialize (Hm i Hi). specialize (Hb i Hi).
  apply in_seq in Hb. rewrite Nat2Z.id.
  unfold Re.match_at in Hm. rewrite !andb_true_iff in Hm.
  unfold len. repeat split; try tauto; lia.
Qed.

(** *** Context snippets *)

Lemma sub_ws_from_length (in_run : bool) (s : str) :
  (length (Re.sub_ws_from in_run s) <= length s)%nat.
Proof.
  revert in_run. induction s as [|c s IH]; intros in_run; simpl; [lia|].
  destruct (isspace c); [destruct in_run|]; simpl;
    match goal with |- context [Re.sub_ws_from ?b s] => specialize (IH b) end;
    lia.
Qed.

Lemma no_double_ws_cons (c d : ascii) (r : str) :
  no_double_ws (c :: d :: r)
  = negb (isspace c && isspace d) && no_double_ws (d :: r).
Proof. reflexivity. Qed.

Lemma sub_ws_from_no_double (in_run : bool) (s : str) :
  no_double_ws (Re.sub_ws_from in_run s) = true
  /\ (in_run = true ->
      match Re.sub_ws_from in_run s with
      | c :: _ => isspace c = false
      | [] => True
      end).
Proof.
  revert in_run. induction s as [|c s IH]; intros in_run; simpl.
  - auto.
  - destruct (isspace c) eqn:Ec.
    + destruct in_run.
      * apply IH.
      * split; [|discriminate].
        destruct (IH true) as [Hn Hh]. specialize (Hh eq_refl).
        destruct (Re.sub_ws_from true s) as [|d r]; [reflexivity|].
        rewrite no_double_ws_cons, Hh, andb_false_r. exact Hn.
    + split; [|intros _; exact Ec].
      destruct (IH false) as [Hn _].
      destruct (Re.sub_ws_from false s) as [|d r]; [reflexivity|].
      rewrite no_double_ws_cons, Ec. exact Hn.
Qed.

Lemma slice_length (s : str) (a b : Z) :
  (0 <= a)%Z -> (0 <= b)%Z -> (len (slice s a b) <= Z.max 0 (b - a))%Z.
Proof.
  intros Ha Hb. unfold slice, len, clamp_index.
  destruct (Z.ltb_spec a 0), (Z.ltb_spec b 0); try lia.
  match goal with |- context [firstn ?n ?l] =>
    pose proof (firstn_le_length n l) end.
  lia.
Qed.

Lemma context_of_length (text : str) (start stop : Z) :
  (0 <= start <= stop)%Z ->
  (len (context_of text start stop) <= stop - start + 100)%Z.
Proof.
  intros H. unfold context_of, Re.sub_ws.
  set (ctx := slice text _ _).
  assert (Hs : (len ctx <= Z.max 0 (Z.min (len text) (stop + 50)
                                   - Z.max 0 (start - 50)))%Z).
  { apply slice_length; unfold len; lia. }
  pose proof (sub_ws_from_length false (strip ctx)).
  pose proof (strip_length ctx).
  unfold len in *. lia.
Qed.

(** The claim of the specification on the length fails: the window covers
    fifty characters on each side of the whole match, so a name of five
    characters gives a snippet of 105 characters. *)
Lemma long_snippet_exceeds_101 :
  exists c,
    In c (Mentions.context_snippets
            (_count_brand_mentions Sample.long_text (lit "pizza")))
    /\ (101 < len c)%Z.
Proof. exists Sample.long_text. split; [left|]; reflexivity. Qed.

(** C3, amended: for every text and brand, each context snippet has at
    most 100 characters more than the normalized brand name, and it has no
    two adjacent whitespace characters. *)
Theorem snippet_bounds (text brand_name : str) :
  Forall
    (fun c =>
       (len c <= 100 + len (_clean_brand_name brand_name))%Z
       /\ no_double_ws c = true)
    (Mentions.context_snippets (_count_brand_mentions text brand_name)).
Proof.
  unfold _count_brand_mentions.
  destruct (_ || _); cbn [Mentions.context_snippets]; [constructor|].
  apply Forall_map, Forall_forall. intros i _. split.
  - pose proof (context_of_length text (Z.of_nat i)
                  (Z.of_nat i + len (_clean_brand_name brand_name))) as H.
    unfold len in *. lia.
  - apply sub_ws_from_no_double.
Qed.

(* ================================================================== *)
(** ** Dictionaries and computations *)
(* ================================================================== *)

Lemma get_set {V} (d : Dict.t V) (k q : str) (v : V) :
  Dict.get (Dict.set d k v) q
  = if str_eqb q k then Some v else Dict.get d q.
Proof.
  induction d as [|[k' v'] d IH]; simpl; [reflexivity|].
  destruct (str_eqb k k') eqn:Ek; simpl.
  - apply str_eqb_eq in Ek. subst k'. now destruct (str_eqb q k).
  - rewrite IH. destruct (str_eqb q k') eqn:Eq; [|reflexivity].
    apply str_eqb_eq in Eq. subst k'.
    now rewrite str_eqb_sym, Ek.
Qed.

Lemma outcome_bind_ret {A B} (m : Py A) (a : A) (k : A -> Py B) :
  outcome m = inr a -> outcome (bind m k) = outcome (k a).
Proof.
  destruct m as [l [e|a']]; simpl; intros H; [discriminate|].
  injection H as ->. unfold bind. now destruct (k a).
Qed.

Lemma outcome_try_ret {A} (m : Py A) (a : A) (h : Exception -> Py A) :
  outcome m = inr a -> outcome (try_except m h) = inr a.
Proof.
  destruct m as [l [e|a']]; simpl; intros H; [discriminate|].
  now injection H as ->.
Qed.

Lemma outcome_try_raise {A} (m : Py A) (e : Exception)
    (h : Exception -> Py A) :
  outcome m = inl e -> outcome (try_except m h) = outcome (h e).
Proof.
  destruct m as [l [e'|a]]; simpl; intros H; [|discriminate].
  injection H as ->. unfold try_except. now destruct (h e).
Qed.

(* ================================================================== *)
(** ** Response analyzer *)
(* ================================================================== *)

(** The analysis is the deterministic record, completed by the metadata
    that the enrichment and its validation give. *)
Lemma analyze_response_unfold (env : Env.t) (user : User.t)
    (competitors : list Competitor.t) (llm_response : LLMResponse.t)
    (api_key : option str) (enhanced_analysis : bool) :
  analyze_response env user competitors llm_response api_key
                   enhanced_analysis
  = try_except
      (analysis_metadata <-
         (if enhanced_analysis && truthy api_key
          then _enhanced_analysis env user competitors
                 (LLMResponse.response_content llm_response)
                 (match api_key with Some key => key | None => [] end)
          else ret (JDict [])) ;;
       metadata <- validate_metadata env analysis_metadata ;;
       ret (deterministic_record user competitors llm_response metadata))
      (fun e =>
         log (ErrorAnalyticsFailed (LLMResponse.id llm_response) e) ;;;
         raise e).
Proof.
  unfold analyze_response, deterministic_record.
  destruct (fold_left _ competitors _) as [cm details]. reflexivity.
Qed.

(** A record that the analysis returns is a deterministic record. *)
Lemma analyze_response_returns (env : Env.t) (user : User.t)
    (competitors : list Competitor.t) (llm_response : LLMResponse.t)
    (api_key : option str) (enhanced_analysis : bool)
    (r : AnalyticsResult.t) :
  outcome (analyze_response env user competitors llm_response api_key
                            enhanced_analysis) = inr r ->
  exists metadata,
    r = deterministic_record user competitors llm_response metadata.
Proof.
  rewrite analyze_response_unfold.
  match goal with
  | |- context [bind ?m _] => destruct m as [l1 [e|j]]
  end; [discriminate|].
  unfold bind, try_except, outcome.
  destruct (validate_metadata env j) as [l2 [e|m]]; simpl; [discriminate|].
  intros H. injection H as <-. now exists m.
Qed.

(** Without enrichment the analysis returns, and returns the
    deterministic record with empty metadata. *)
Lemma analyze_response_plain (env : Env.t) (user : User.t)
    (competitors : list Competitor.t) (llm_response : LLMResponse.t)
    (api_key : option str) :
  analyze_response env user competitors llm_response api_key false
  = ret (deterministic_record user competitors llm_response (Some [])).
Proof. rewrite analyze_response_unfold. reflexivity. Qed.

(** With enrichment, when the enrichment gives a dictionary. *)
Lemma analyze_response_enriched (env : Env.t) (user : User.t)
    (competitors : list Competitor.t) (llm_response : LLMResponse.t)
    (key : str) (d : Dict.t json) :
  key <> [] ->
  outcome (_enhanced_analysis env user competitors
             (LLMResponse.response_content llm_response) key)
  = inr (JDict d) ->
  outcome (analyze_response env user competitors llm_response
                            (Some key) true)
  = inr (deterministic_record user competitors llm_response (Some d)).
Proof.
  intros Hkey H. rewrite analyze_response_unfold.
  destruct key as [|c key]; [contradiction|]. cbn [andb truthy].
  apply outcome_try_ret.
  rewrite (outcome_bind_ret _ _ _ H). reflexivity.
Qed.

(** The competitor loop records, for each competitor met, its count. *)
Lemma competitor_loop_get (content : str) (competitors : list Competitor.t)
    (st : Dict.t Z * list BrandMention.t) (c : Competitor.t) :
  In c competitors ->
  Dict.get (fst (fold_left (competitor_step content) competitors st))
           (Competitor.name c)
  = Some (Mentions.mention_count
            (_count_brand_mentions content (Competitor.name c))).
Proof.
  induction competitors as [|x l IH] using rev_ind; [contradiction|].
  intros Hin. rewrite fold_left_app. cbn [fold_left].
  destruct (fold_left (competitor_step content) l st) as [cm details] eqn:E.
  assert (Hfst : fst (competitor_step content (cm, details) x)
                 = Dict.set cm (Competitor.name x)
                     (Mentions.mention_count
                        (_count_brand_mentions content (Competitor.name x)))).
  { unfold competitor_step. now destruct (0 <? _)%Z. }
  rewrite Hfst, get_set.
  destruct (str_eqb (Competitor.name c) (Competitor.name x)) eqn:En.
  - apply str_eqb_eq in En. now rewrite En.
  - apply in_app_or in Hin as [Hin|[->|[]]].
    + specialize (IH Hin). rewrite ?E in IH. exact IH.
    + now rewrite str_eqb_refl in En.
Qed.

(** C1: every record that [analyze_response] returns, whatever the owner,
    the competitors and the response text, has its total equal to the
    owner's count plus the sum of the values of [competitor_mentions], and
    [competitor_mentions] maps the name of every competitor supplied to
    its count in the lower-cased response, zero included. *)
Theorem total_mentions_invariant (env : Env.t) (user : User.t)
    (competitors : list Competitor.t) (llm_response : LLMResponse.t)
    (api_key : option str) (enhanced_analysis : bool)
    (r : AnalyticsResult.t) :
  outcome (analyze_response env user competitors llm_response api_key
                            enhanced_analysis) = inr r ->
  AnalyticsResult.total_mentions r
  = (AnalyticsResult.user_brand_mentions r
     + sum (Dict.values (AnalyticsResult.competitor_mentions r)))%Z
  /\ forall c,
       In c competitors ->
       Dict.get (AnalyticsResult.competitor_mentions r) (Competitor.name c)
       = Some (count_in llm_response (Competitor.name c)).
Proof.
  intros H. apply analyze_response_returns in H as [m ->].
  split; [reflexivity|].
  intros c Hc. unfold deterministic_record, count_in.
  cbn [AnalyticsResult.competitor_mentions].
  now apply competitor_loop_get.
Qed.

Lemma total_mentions_invariant_witness :
  let r :=
    deterministic_record Sample.joe [Sample.pizza_hut] Sample.praise
                         (Some []) in
  outcome (analyze_response Sample.env_down Sample.joe [Sample.pizza_hut]
                            Sample.praise None true) = inr r
  /\ AnalyticsResult.total_mentions r = 3%Z
  /\ (AnalyticsResult.total_mentions r
      = (AnalyticsResult.user_brand_mentions r
         + sum (Dict.values (AnalyticsResult.competitor_mentions r)))%Z
      /\ forall c,
           In c [Sample.pizza_hut] ->
           Dict.get (AnalyticsResult.competitor_mentions r)
                    (Competitor.name c)
           = Some (count_in Sample.praise (Competitor.name c))).
Proof.
  intros r.
  split; [vm_compute; reflexivity|]. split; [vm_compute; reflexivity|].
  apply (total_mentions_invariant Sample.env_down Sample.joe
           [Sample.pizza_hut] Sample.praise None true).
  vm_compute; reflexivity.
Defined.

(** The scenario of the specification, end to end. *)
Example joes_pizza_scenario :
  let r :=
    deterministic_record Sample.joe [Sample.pizza_hut] Sample.praise
                         (Some []) in
  AnalyticsResult.user_brand_mentions r = 1%Z
  /\ AnalyticsResult.competitor_mentions r = [(lit "Pizza Hut", 2%Z)]
  /\ AnalyticsResult.total_mentions r = 3%Z
  /\ map BrandMention.brand_name (AnalyticsResult.mention_details r)
     = [lit "Joe's Pizza"; lit "Pizza Hut"]
  /\ map BrandMention.mention_positions (AnalyticsResult.mention_details r)
     = [[0%Z]; [34%Z; 48%Z]].
Proof. vm_compute. repeat split. Qed.

(** *** Enrichment *)

Section Enrichment.
Variables (env : Env.t) (user : User.t) (competitors : list Competitor.t)
          (llm_response : LLMResponse.t) (key : str).

Let prompt := enrichment_prompt user competitors llm_response.
Let enhanced :=
  _enhanced_analysis env user competitors
    (LLMResponse.response_content llm_response) key.

(** The reply is not JSON. *)
Lemma enhanced_analysis_unparsable (text msg : str) :
  Env.generate_response env prompt key = inr (Some text) ->
  Env.json_loads env text = inl (JSONDecodeError msg) ->
  outcome enhanced = inr (JDict [(lit "raw_analysis", JString text)]).
Proof.
  intros Hgen Hloads. subst prompt enhanced.
  unfold _enhanced_analysis, enrichment_prompt in *.
  unfold call. rewrite Hgen. cbn. now rewrite Hloads.
Qed.

(** The call fails. *)
Lemma enhanced_analysis_call_failed (e : Exception) :
  Env.generate_response env prompt key = inl e ->
  outcome enhanced = inr (JDict [(lit "error", JString (exc_str e))]).
Proof.
  intros Hgen. subst prompt enhanced.
  unfold _enhanced_analysis, enrichment_prompt in *.
  unfold call. now rewrite Hgen.
Qed.

(** The parser fails otherwise than on the syntax. *)
Lemma enhanced_analysis_parser_failed (text : str) (e : Exception) :
  Env.generate_response env prompt key = inr (Some text) ->
  Env.json_loads env text = inl e ->
  (forall msg, e <> JSONDecodeError msg) ->
  outcome enhanced = inr (JDict [(lit "error", JString (exc_str e))]).
Proof.
  intros Hgen Hloads Hne. subst prompt enhanced.
  unfold _enhanced_analysis, enrichment_prompt in *.
  unfold call. rewrite Hgen. cbn. rewrite Hloads.
  destruct e; try reflexivity. now elim (Hne msg).
Qed.

(** The reply has no content. *)
Lemma enhanced_analysis_no_content :
  Env.generate_response env prompt key = inr None ->
  exists msg,
    outcome enhanced = inr (JDict [(lit "error", JString msg)]).
Proof.
  intros Hgen. subst prompt enhanced.
  unfold _enhanced_analysis, enrichment_prompt in *.
  unfold call. rewrite Hgen. eexists. reflexivity.
Qed.

(** The enrichment never raises. *)
Lemma enhanced_analysis_returns : exists j, outcome enhanced = inr j.
Proof.
  subst enhanced. unfold _enhanced_analysis, call.
  destruct (Env.generate_response env _ key) as [e|[text|]]; cbn;
    eauto.
  destruct (Env.json_loads env text) as [[]|j]; cbn; eauto.
Qed.

Lemma degrades_to_intro (fallback : Dict.t json) :
  key <> [] ->
  outcome enhanced = inr (JDict fallback) ->
  degrades_to env user competitors llm_response key fallback.
Proof.
  intros Hkey H.
  exists (deterministic_record user competitors llm_response
                               (Some fallback)),
         (deterministic_record user competitors llm_response (Some [])).
  split; [now apply analyze_response_enriched|].
  split; [now rewrite analyze_response_plain|].
  repeat split.
Qed.
End Enrichment.

(** C6: when the enrichment runs (enrichment asked for, with a key): if
    the reply of the model is not JSON, the record carries the raw reply
    under ["raw_analysis"]; if the call fails in another way (the call
    raises, the reply has no content, the parser raises another
    exception), it carries a description of the error under ["error"].
    In all these cases the analysis returns a record, and its counts and
    evidence are those of the analysis without enrichment. *)
Theorem enrichment_degradation (env : Env.t) (user : User.t)
    (competitors : list Competitor.t) (llm_response : LLMResponse.t)
    (key : str) :
  key <> [] ->
  let prompt := enrichment_prompt user competitors llm_response in
  let degrades := degrades_to env user competitors llm_response key in
  (forall text msg,
      Env.generate_response env prompt key = inr (Some text) ->
      Env.json_loads env text = inl (JSONDecodeError msg) ->
      degrades [(lit "raw_analysis", JString text)])
  /\ (forall e,
        Env.generate_response env prompt key = inl e ->
        degrades [(lit "error", JString (exc_str e))])
  /\ (forall text e,
        Env.generate_response env prompt key = inr (Some text) ->
        Env.json_loads env text = inl e ->
        (forall msg, e <> JSONDecodeError msg) ->
        degrades [(lit "error", JString (exc_str e))])
  /\ (Env.generate_response env prompt key = inr None ->
      exists msg, degrades [(lit "error", JString msg)]).
Proof.
  intros Hkey prompt degrades. subst prompt degrades.
  repeat split.
  - intros text msg Hgen Hloads. apply degrades_to_intro; [assumption|].
    eapply enhanced_analysis_unparsable; eassumption.
  - intros e Hgen. apply degrades_to_intro; [assumption|].
    now apply enhanced_analysis_call_failed.
  - intros text e Hgen Hloads Hne. apply degrades_to_intro; [assumption|].
    eapply enhanced_analysis_parser_failed; eassumption.
  - intros Hgen.
    destruct (enhanced_analysis_no_content env user competitors
                llm_response key Hgen) as [msg H].
    exists msg. now apply degrades_to_intro.
Qed.

Lemma enrichment_degradation_witness :
  lit "sk-1" <> []
  /\ degrades_to Sample.env_garbled Sample.joe [Sample.pizza_hut]
       Sample.praise (lit "sk-1")
       [(lit "raw_analysis", JString (lit "not json"))]
  /\ degrades_to Sample.env_down Sample.joe [Sample.pizza_hut]
       Sample.praise (lit "sk-1")
       [(lit "error", JString (lit "connection refused"))].
Proof.
  assert (Hkey : lit "sk-1" <> []) by discriminate.
  split; [exact Hkey|]. split.
  - exact (proj1 (enrichment_degradation Sample.env_garbled Sample.joe
                    [Sample.pizza_hut] Sample.praise (lit "sk-1") Hkey)
             (lit "not json") (lit "Expecting value") eq_refl eq_refl).
  - exact (proj1 (proj2 (enrichment_degradation Sample.env_down Sample.joe
                           [Sample.pizza_hut] Sample.praise (lit "sk-1")
                           Hkey))
             (OtherException (lit "connection refused")) eq_refl).
Defined.

(* ================================================================== *)
(** ** Batch analyzer *)
(* ================================================================== *)

Section Batch.
Context {A : Type}.
Variable analyze : LLMResponse.t -> Py A.

Lemma tasks_are_map (llm_responses : list LLMResponse.t)
    (tasks : list (Py A)) :
  fold_left (fun tasks response => tasks ++ [analyze response])
            llm_responses tasks
  = tasks ++ map analyze llm_responses.
Proof.
  revert tasks. induction llm_responses as [|r l IH]; intros tasks; simpl.
  - now rewrite app_nil_r.
  - rewrite IH. now rewrite <- app_assoc.
Qed.

(** The loop over the gathered results keeps the values, in order, and
    logs one record for each exception. *)
Lemma keep_successful_loop (ms : list (Py A)) (acc : list A) :
  for_each (map (@outcome A) ms) acc keep_successful
  = (map ErrorBatchItemFailed (failures ms), inr (acc ++ returned ms)).
Proof.
  revert acc. induction ms as [|m ms IH]; intros acc; simpl.
  - unfold ret. now rewrite app_nil_r.
  - destruct (outcome m) as [e|a]; simpl; rewrite IH; simpl.
    + reflexivity.
    + now rewrite <- app_assoc.
Qed.

Lemma batch_analyze_eq (llm_responses : list LLMResponse.t) :
  batch_analyze analyze llm_responses
  = (concat (map (@logged A) (map analyze llm_responses))
     ++ map ErrorBatchItemFailed (failures (map analyze llm_responses)),
     inr (returned (map analyze llm_responses))).
Proof.
  unfold batch_analyze. rewrite tasks_are_map. simpl.
  unfold gather_return_exceptions, bind, try_except.
  now rewrite keep_successful_loop.
Qed.

Lemma returned_app (ms1 ms2 : list (Py A)) :
  returned (ms1 ++ ms2) = returned ms1 ++ returned ms2.
Proof.
  induction ms1 as [|m ms1 IH]; simpl; [reflexivity|].
  destruct (outcome m); simpl; now rewrite IH.
Qed.

Lemma returned_failures_length (ms : list (Py A)) :
  (length (returned ms) + length (failures ms) = length ms)%nat.
Proof.
  induction ms as [|m ms IH]; simpl; [reflexivity|].
  destruct (outcome m); simpl; lia.
Qed.

Lemma failures_are_raised (ms : list (Py A)) :
  length (failures ms) = length (filter raised ms).
Proof.
  induction ms as [|m ms IH]; simpl; [reflexivity|].
  unfold raised at 1. destruct (outcome m); simpl; now rewrite IH.
Qed.
End Batch.

(** C5: of K responses of which F raise during their analysis, the batch
    returns K - F records: the values of the analyses that did not raise.
    Each exception is caught and logged by one record, the others are
    analysed all the same, and the batch itself does not raise. *)
Theorem batch_isolation (A : Type) (analyze : LLMResponse.t -> Py A)
    (llm_responses : list LLMResponse.t) :
  let tasks := map analyze llm_responses in
  let batch := batch_analyze analyze llm_responses in
  let failed := filter raised tasks in
  exists results,
    outcome batch = inr results
    /\ (len results = len llm_responses - len failed)%Z
    /\ results = returned tasks
    /\ logged batch
       = concat (map (@logged A) tasks)
         ++ map ErrorBatchItemFailed (failures tasks)
    /\ len (failures tasks) = len failed.
Proof.
  intros tasks batch failed. subst tasks batch failed.
  rewrite batch_analyze_eq. eexists. split; [reflexivity|].
  pose proof (returned_failures_length (map analyze llm_responses)) as H.
  pose proof (failures_are_raised (map analyze llm_responses)) as H'.
  rewrite length_map in H. unfold len.
  repeat split; try reflexivity; lia.
Qed.

(** The batch of the service: as the analysis of one response without
    enrichment always returns, every response has its record. *)
Lemma batch_analyze_responses_all (env : Env.t) (user : User.t)
    (competitors : list Competitor.t) (llm_responses : list LLMResponse.t)
    (api_key : option str) :
  batch_analyze_responses env user competitors llm_responses api_key
  = ret (map (fun response =>
                deterministic_record user competitors response (Some []))
             llm_responses).
Proof.
  unfold batch_analyze_responses. rewrite batch_analyze_eq.
  unfold ret. f_equal.
  - induction llm_responses as [|r l IH]; [reflexivity|].
    cbn [map failures concat]. rewrite analyze_response_plain at 1 2.
    cbn [logged outcome ret fst snd app]. exact IH.
  - f_equal. induction llm_responses as [|r l IH]; [reflexivity|].
    cbn [map returned]. rewrite analyze_response_plain at 1.
    cbn [outcome ret snd]. now rewrite IH.
Qed.

Lemma nth_error_cut {X : Type} (l : list X) (n : nat) (x : X) :
  nth_error l n = Some x -> l = firstn n l ++ x :: skipn (S n) l.
Proof.
  revert n. induction l as [|y l IH]; intros [|n]; simpl; try discriminate.
  - now intros [= ->].
  - intros H. f_equal. now apply IH.
Qed.

(** C10: the batch keeps the order of its input: the record of a response
    that analysed successfully stands at the position which is the number
    of successful responses before it; hence of two such responses, the
    record of the earlier one comes first. *)
Theorem batch_keeps_order (A : Type) (analyze : LLMResponse.t -> Py A)
    (llm_responses : list LLMResponse.t) (i j : nat)
    (ri rj : LLMResponse.t) (a b : A) :
  (i < j)%nat ->
  nth_error llm_responses i = Some ri ->
  nth_error llm_responses j = Some rj ->
  outcome (analyze ri) = inr a ->
  outcome (analyze rj) = inr b ->
  exists results,
    outcome (batch_analyze analyze llm_responses) = inr results
    /\ let p := length (returned (map analyze (firstn i llm_responses))) in
       let q := length (returned (map analyze (firstn j llm_responses))) in
       (p < q)%nat
       /\ nth_error results p = Some a
       /\ nth_error results q = Some b.
Proof.
  intros Hij Hi Hj Ha Hb. rewrite batch_analyze_eq.
  eexists. split; [reflexivity|]. cbn zeta.
  assert (Hat : forall n r v,
             nth_error llm_responses n = Some r ->
             outcome (analyze r) = inr v ->
             nth_error (returned (map analyze llm_responses))
               (length (returned (map analyze (firstn n llm_responses))))
             = Some v).
  { intros n r v Hn Hv.
    rewrite (nth_error_cut _ _ _ Hn) at 1.
    rewrite map_app, returned_app. cbn [map returned]. rewrite Hv.
    rewrite nth_error_app2 by lia. now rewrite Nat.sub_diag. }
  split; [|split; eauto].
  assert (Hpre : firstn j llm_responses
                 = firstn i llm_responses
                   ++ ri :: skipn (S i) (firstn j llm_responses)).
  { assert (Hi' : nth_error (firstn j llm_responses) i = Some ri).
    { now rewrite nth_error_firstn, (proj2 (Nat.ltb_lt _ _) Hij). }
    rewrite (nth_error_cut _ _ _ Hi') at 1.
    rewrite firstn_firstn. now replace (Nat.min i j) with i by lia. }
  rewrite Hpre at 1. rewrite map_app, returned_app. cbn [map returned].
  rewrite Ha, length_app. simpl. lia.
Qed.

Lemma batch_keeps_order_witness :
  exists results,
    outcome (batch_analyze Sample.flaky Sample.three_responses)
    = inr results
    /\ (0 < 1)%nat
    /\ nth_error results 0 = Some 1%Z
    /\ nth_error results 1 = Some 3%Z.
Proof.
  destruct (batch_keeps_order Z Sample.flaky Sample.three_responses 0 2
              (LLMResponse.mk (lit "r1") (lit "u1") (lit "p1") OPENAI
                 (lit "gpt-4") (lit "first") 1)
              (LLMResponse.mk (lit "r3") (lit "u1") (lit "p1") ANTHROPIC
                 (lit "opus") (lit "third") 3)
              1%Z 3%Z (Nat.lt_0_succ 1) eq_refl eq_refl eq_refl eq_refl)
    as [results H].
  exists results. exact H.
Defined.

(* ================================================================== *)
(** ** Metrics aggregator *)
(* ================================================================== *)

Lemma fold_add (xs : list Z) (a : Z) :
  fold_left Z.add xs a = (a + sum xs)%Z.
Proof.
  unfold sum. revert a. induction xs as [|x xs IH]; intros a; simpl.
  - lia.
  - rewrite IH, (IH x). lia.
Qed.

Lemma sum_cons (x : Z) (xs : list Z) : sum (x :: xs) = (x + sum xs)%Z.
Proof. unfold sum at 1. simpl. apply fold_add. Qed.

Lemma sum_app (xs ys : list Z) : sum (xs ++ ys) = (sum xs + sum ys)%Z.
Proof.
  induction xs as [|x xs IH]; [reflexivity|].
  simpl. rewrite !sum_cons, IH. lia.
Qed.

(** [sum(1 for x in xs)] is [len(xs)]. *)
Lemma sum_ones {X : Type} (xs : list X) :
  sum (map (fun _ => 1%Z) xs) = len xs.
Proof.
  unfold len. induction xs as [|x xs IH]; [reflexivity|].
  cbn [map]. rewrite sum_cons, IH. simpl length. lia.
Qed.

Lemma total_responses_len (analytics_results : list AnalyticsResult.t) :
  Metrics.total_responses (calculate_performance_metrics analytics_results)
  = len analytics_results.
Proof. now destruct analytics_results. Qed.

(** C7: for a sequence of records that is not empty, the owner mention
    rate is the number of records whose owner count is positive, divided
    by the number of records. *)
Theorem owner_mention_rate (analytics_results : list AnalyticsResult.t) :
  analytics_results <> [] ->
  Metrics.user_mention_rate
    (calculate_performance_metrics analytics_results)
  = (inject_Z (len (filter mentions_owner analytics_results))
     / inject_Z (len analytics_results))%Q.
Proof.
  intros Hne. destruct analytics_results as [|r l]; [contradiction|].
  unfold calculate_performance_metrics.
  cbn [Metrics.user_mention_rate].
  replace (0 <? len (r :: l))%Z with true
    by (symmetry; apply Z.ltb_lt; unfold len; simpl length; lia).
  unfold truediv. now rewrite sum_ones.
Qed.

(** For the owner counts 1, 0, 2, 0 the rate is one half. *)
Lemma owner_mention_rate_witness :
  Sample.four_records <> []
  /\ Metrics.user_mention_rate
       (calculate_performance_metrics Sample.four_records)
     = (inject_Z (len (filter mentions_owner Sample.four_records))
        / inject_Z (len Sample.four_records))%Q
  /\ (Metrics.user_mention_rate
        (calculate_performance_metrics Sample.four_records) == 1 # 2)%Q.
Proof.
  assert (H : Sample.four_records <> []) by discriminate.
  split; [exact H|]. split.
  - exact (owner_mention_rate Sample.four_records H).
  - rewrite (owner_mention_rate Sample.four_records H). reflexivity.
Defined.

(* ================================================================== *)
(** ** Model comparator *)
(* ================================================================== *)

Lemma set_set {V} (d : Dict.t V) (k : str) (v v' : V) :
  Dict.set (Dict.set d k v) k v' = Dict.set d k v'.
Proof.
  induction d as [|[k' v0] d IH]; simpl.
  - now rewrite str_eqb_refl.
  - destruct (str_eqb k k') eqn:E; simpl; rewrite E; [reflexivity|].
    now rewrite IH.
Qed.

Lemma get_absent {V} (d : Dict.t V) (k : str) :
  Dict.get d k = None <-> ~ In k (Dict.keys d).
Proof.
  induction d as [|[k' v] d IH]; simpl; [tauto|].
  destruct (str_eqb k k') eqn:E.
  - apply str_eqb_eq in E. subst. split; [discriminate|]. intros H.
    elim H. now left.
  - apply str_eqb_neq in E. rewrite IH. split.
    + intros H [->|H']; [now elim E|contradiction].
    + intros H H'. apply H. now right.
Qed.

Lemma set_absent {V} (d : Dict.t V) (k : str) (v : V) :
  ~ In k (Dict.keys d) -> Dict.set d k v = d ++ [(k, v)].
Proof.
  induction d as [|[k' v'] d IH]; simpl; intros H; [reflexivity|].
  destruct (str_eqb k k') eqn:E.
  - apply str_eqb_eq in E. subst. elim H. now left.
  - rewrite IH; [reflexivity|]. intros H'. apply H. now right.
Qed.

Lemma keys_set {V} (d : Dict.t V) (k : str) (v : V) :
  Dict.keys (Dict.set d k v)
  = if Dict.contains d k then Dict.keys d else Dict.keys d ++ [k].
Proof.
  unfold Dict.contains.
  induction d as [|[k' v'] d IH]; simpl; [reflexivity|].
  destruct (str_eqb k k') eqn:E; simpl; [reflexivity|].
  rewrite IH. now destruct (Dict.get d k).
Qed.

Lemma keys_set_NoDup {V} (d : Dict.t V) (k : str) (v : V) :
  NoDup (Dict.keys d) -> NoDup (Dict.keys (Dict.set d k v)).
Proof.
  intros H. rewrite keys_set. unfold Dict.contains.
  destruct (Dict.get d k) eqn:E; [assumption|].
  apply get_absent in E.
  apply NoDup_rev in H. rewrite <- (rev_involutive (Dict.keys d ++ [k])).
  apply NoDup_rev. rewrite rev_app_distr. simpl.
  constructor; [|assumption]. now rewrite <- in_rev.
Qed.

(** The provider and the model can be read back from the key. *)
Lemma model_key_eqb (p p' : LLMProvider) (m m' : str) :
  str_eqb (model_key_of p' m') (model_key_of p m)
  = provider_eqb p' p && str_eqb m' m.
Proof. destruct p', p; reflexivity. Qed.

Section Grouping.
Variable llm_responses : list LLMResponse.t.

Let step := group_step llm_responses.

Lemma group_step_eq (d : Dict.t (list AnalyticsResult.t))
    (r : AnalyticsResult.t) :
  step d r
  = match key_of llm_responses r with
    | None => d
    | Some k => Dict.set d k (group_of d k ++ [r])
    end.
Proof.
  subst step. unfold group_step, key_of, group_of.
  destruct (find_response llm_responses r) as [resp|]; [|reflexivity].
  set (k := model_key_of _ _). unfold Dict.contains.
  destruct (Dict.get d k) eqn:E; simpl.
  - now rewrite E.
  - rewrite get_set, str_eqb_refl. apply set_set.
Qed.

Lemma sizes_set (d : Dict.t (list AnalyticsResult.t)) (k : str)
    (g : list AnalyticsResult.t) :
  group_sizes (Dict.set d k g)
  = (group_sizes d - len (group_of d k) + len g)%Z.
Proof.
  unfold group_sizes, group_of, Dict.values.
  induction d as [|[k' g0] d IH]; simpl.
  - rewrite sum_cons. change (sum []) with 0%Z. unfold len. simpl. lia.
  - destruct (str_eqb k k') eqn:E; simpl; rewrite !sum_cons.
    + lia.
    + rewrite IH. lia.
Qed.

(** Every record whose response is found is filed once. *)
Lemma sizes_fold (l : list AnalyticsResult.t)
    (d : Dict.t (list AnalyticsResult.t)) :
  group_sizes (fold_left step l d)
  = (group_sizes d + len (filter (resolved llm_responses) l))%Z.
Proof.
  revert d. induction l as [|r l IH]; intros d; simpl.
  - unfold len. simpl. lia.
  - rewrite IH, group_step_eq. unfold resolved, key_of.
    destruct (find_response llm_responses r) as [resp|].
    + rewrite sizes_set. unfold len. rewrite length_app. simpl length.
      lia.
    + reflexivity.
Qed.

Lemma group_of_set (d : Dict.t (list AnalyticsResult.t)) (k q : str)
    (g : list AnalyticsResult.t) :
  group_of (Dict.set d k g) q = if str_eqb q k then g else group_of d q.
Proof. unfold group_of. rewrite get_set. now destruct (str_eqb q k). Qed.

(** The group of a key holds, in their order, the records filed under
    it. *)
Lemma get_fold (l : list AnalyticsResult.t)
    (d : Dict.t (list AnalyticsResult.t)) (k : str) :
  Dict.get (fold_left step l d) k
  = match filter (in_group llm_responses k) l with
    | [] => Dict.get d k
    | g => Some (group_of d k ++ g)
    end.
Proof.
  revert d. induction l as [|r l IH]; intros d; simpl; [reflexivity|].
  rewrite IH, group_step_eq. unfold in_group at 2.
  destruct (key_of llm_responses r) as [k'|]; [|reflexivity].
  rewrite group_of_set, get_set, (str_eqb_sym k k').
  destruct (str_eqb k' k) eqn:E; [|reflexivity].
  apply str_eqb_eq in E. subst k'.
  destruct (filter (in_group llm_responses k) l); [reflexivity|].
  now rewrite <- app_assoc.
Qed.

Lemma keys_fold_NoDup (l : list AnalyticsResult.t)
    (d : Dict.t (list AnalyticsResult.t)) :
  NoDup (Dict.keys d) -> NoDup (Dict.keys (fold_left step l d)).
Proof.
  revert d. induction l as [|r l IH]; intros d H; simpl; [assumption|].
  apply IH. rewrite group_step_eq.
  destruct (key_of llm_responses r); [|assumption].
  now apply keys_set_NoDup.
Qed.
End Grouping.

(** The second loop copies the keys, with the metrics of each group. *)
Lemma comparison_loop (items : list (str * list AnalyticsResult.t))
    (model_comparison : Dict.t Metrics.t) :
  NoDup (Dict.keys model_comparison ++ map fst items) ->
  fold_left
    (fun model_comparison '(model_key, results) =>
       Dict.set model_comparison model_key
                (calculate_performance_metrics results))
    items model_comparison
  = model_comparison
    ++ map (fun '(k, g) => (k, calculate_performance_metrics g)) items.
Proof.
  revert model_comparison.
  induction items as [|[k g] items IH]; intros mc H; simpl.
  - now rewrite app_nil_r.
  - simpl in H. rewrite set_absent.
    2:{ apply NoDup_remove_2 in H. intros Hin. apply H.
        apply in_or_app. now left. }
    rewrite IH.
    + now rewrite <- app_assoc.
    + unfold Dict.keys in *. rewrite map_app, <- app_assoc. exact H.
Qed.

Lemma compare_model_performance_eq
    (analytics_results : list AnalyticsResult.t)
    (llm_responses : list LLMResponse.t) :
  compare_model_performance analytics_results llm_responses
  = map (fun '(k, g) => (k, calculate_performance_metrics g))
        (group_by_model analytics_results llm_responses).
Proof.
  unfold compare_model_performance, Dict.items.
  rewrite comparison_loop; [reflexivity|].
  simpl. apply (keys_fold_NoDup llm_responses analytics_results []).
  constructor.
Qed.

Lemma get_metrics (d : Dict.t (list AnalyticsResult.t)) (k : str) :
  Dict.get (map (fun '(k, g) => (k, calculate_performance_metrics g)) d) k
  = option_map calculate_performance_metrics (Dict.get d k).
Proof.
  induction d as [|[k' g] d IH]; simpl; [reflexivity|].
  now destruct (str_eqb k k').
Qed.

(** C8: the comparator raises nothing and skips the records whose
    response is not found; the metrics returned for a provider and a
    model are those of the records whose response comes from them, so
    that each record with a response is in one group; and the
    [total_responses] of the metrics returned add up to the number of
    records whose response is found, which is at most the number of
    records. *)
Theorem model_comparison_partition
    (analytics_results : list AnalyticsResult.t)
    (llm_responses : list LLMResponse.t) :
  let comparison :=
    compare_model_performance analytics_results llm_responses in
  let found := filter (resolved llm_responses) analytics_results in
  sum (map Metrics.total_responses (Dict.values comparison)) = len found
  /\ (len found <= len analytics_results)%Z
  /\ NoDup (Dict.keys comparison)
  /\ forall provider model,
       Dict.get comparison (model_key_of provider model)
       = match filter (produced_by llm_responses provider model)
                      analytics_results with
         | [] => None
         | group => Some (calculate_performance_metrics group)
         end.
Proof.
  intros comparison found. subst comparison found.
  rewrite compare_model_performance_eq. unfold group_by_model.
  repeat split.
  - unfold Dict.values. rewrite !map_map.
    pose proof (sizes_fold llm_responses analytics_results []) as H.
    unfold group_sizes, Dict.values in H. rewrite map_map in H.
    change (sum (map _ (Dict.empty _))) with 0%Z in H.
    rewrite Z.add_0_l in H. rewrite <- H. f_equal.
    apply map_ext. intros [k g]. apply total_responses_len.
  - unfold len. pose proof (filter_length_le (resolved llm_responses)
                              analytics_results). lia.
  - unfold Dict.keys. rewrite map_map.
    erewrite map_ext; [apply (keys_fold_NoDup llm_responses
                                analytics_results []); constructor|].
    now intros [k g].
  - intros provider model. rewrite get_metrics, get_fold.
    rewrite (filter_ext
               (in_group llm_responses (model_key_of provider model))
               (produced_by llm_responses provider model)).
    2:{ intros r. unfold in_group, key_of, produced_by.
        destruct (find_response llm_responses r); [|reflexivity].
        apply model_key_eqb. }
    now destruct (filter _ analytics_results).
Qed.

(* ================================================================== *)
(** ** Further properties of the mention matcher *)
(* ================================================================== *)

(** The scan reports offsets from [resume] on. *)
Lemma scan_from_resume (name text : str) (offsets : list nat)
    (resume : nat) :
  Forall (fun i => (resume <= i)%nat) (Re.scan name text offsets resume).
Proof.
  revert resume. induction offsets as [|i rest IH]; intros resume; simpl.
  - constructor.
  - destruct (Nat.leb_spec resume i) as [Hle|Hlt]; simpl; [|apply IH].
    destruct (Re.match_at name text i); [|apply IH].
    constructor; [assumption|].
    eapply Forall_impl; [|apply IH]. intros j Hj. simpl in Hj. lia.
Qed.

Lemma apart_cons (gap p q : Z) (ps : list Z) :
  apart gap (p :: q :: ps) = ((p + gap <=? q)%Z && apart gap (q :: ps)).
Proof. reflexivity. Qed.

(** Two offsets reported in a row are at least one match apart. *)
Lemma scan_apart (name text : str) (offsets : list nat) (resume : nat) :
  apart (len name) (map Z.of_nat (Re.scan name text offsets resume)) = true.
Proof.
  revert resume. induction offsets as [|i rest IH]; intros resume; simpl.
  - reflexivity.
  - destruct ((resume <=? i)%nat && Re.match_at name text i); [|apply IH].
    pose proof (scan_from_resume name text rest (i + length name)) as Hge.
    specialize (IH (i + length name)%nat).
    destruct (Re.scan name text rest (i + length name)) as [|j js];
      [reflexivity|].
    cbn [map] in *. rewrite apart_cons, IH, andb_true_r.
    inversion Hge; subst. apply Z.leb_le. unfold len. lia.
Qed.

Lemma literal_prefix_length (name s : str) :
  Re.literal_prefix name s = true -> (length name <= length s)%nat.
Proof.
  revert s. induction name as [|p name IH]; intros [|c s]; simpl;
    try discriminate; try lia.
  intros H. apply andb_true_iff in H as [_ H]. apply IH in H. lia.
Qed.

Lemma match_at_fits (name text : str) (i : nat) :
  Re.match_at name text i = true ->
  (i <= length text)%nat ->
  (i + length name <= length text)%nat.
Proof.
  unfold Re.match_at. rewrite !andb_true_iff. intros [[_ H] _] Hi.
  apply literal_prefix_length in H. rewrite length_skipn in H. lia.
Qed.

(** The matches tried by [finditer] lie inside the text. *)
Lemma finditer_fits (name text : str) :
  Forall (fun i => (i + length name <= length text)%nat)
         (Re.finditer name text).
Proof.
  unfold Re.finditer.
  pose proof (scan_match_at name text (seq 0 (S (length text))) 0) as Hm.
  pose proof (scan_bounds name text (seq 0 (S (length text))) 0) as Hb.
  rewrite Forall_forall in *. intros i Hi.
  apply match_at_fits; [now apply Hm|].
  specialize (Hb i Hi). apply in_seq in Hb. lia.
Qed.

(** The matcher returns the zero evidence, or the evidence of the scan
    for a normalized name of two characters at least. *)
Lemma count_brand_mentions_cases (text brand_name : str) :
  _count_brand_mentions text brand_name = Mentions.zero
  \/ ((2 <= len (_clean_brand_name brand_name))%Z
      /\ _count_brand_mentions text brand_name
         = let matches := Re.finditer (_clean_brand_name brand_name) text in
           Mentions.mk
             (len matches) (map Z.of_nat matches)
             (map (fun start =>
                     context_of text (Z.of_nat start)
                       (Z.of_nat start + len (_clean_brand_name brand_name)))
                  matches)).
Proof.
  unfold _count_brand_mentions.
  destruct (_clean_brand_name brand_name) as [|c name]; [now left|].
  rewrite orb_false_l.
  destruct (Z.ltb_spec (len (c :: name)) 2); [now left|right].
  split; [assumption|reflexivity].
Qed.

(** X1: the evidence of the matcher is coherent: the count is the number
    of positions and the number of snippets; each position is the start
    of an occurrence that lies inside the text; and two positions in a
    row are at least the length of the normalized name apart (the matches
    do not overlap), a length which is at least 2 when there is a
    position, so that the positions grow strictly. *)
Theorem evidence_coherent (text brand_name : str) :
  let m := _count_brand_mentions text brand_name in
  let n := len (_clean_brand_name brand_name) in
  Mentions.mention_count m = len (Mentions.mention_positions m)
  /\ Mentions.mention_count m = len (Mentions.context_snippets m)
  /\ Forall (fun p => (0 <= p /\ p + n <= len text)%Z)
            (Mentions.mention_positions m)
  /\ apart n (Mentions.mention_positions m) = true
  /\ (m = Mentions.zero \/ (2 <= n)%Z).
Proof.
  intros m n. subst m n.
  destruct (count_brand_mentions_cases text brand_name) as [E|[Hn E]];
    rewrite E.
  { simpl. repeat split; auto. }
  cbn zeta.
  cbn [Mentions.mention_count Mentions.mention_positions
       Mentions.context_snippets].
  unfold len. rewrite !length_map. repeat split.
  - apply Forall_map.
    eapply Forall_impl;
      [|apply (finditer_fits (_clean_brand_name brand_name) text)].
    intros i Hi. cbv beta in Hi. lia.
  - apply scan_apart.
  - right. exact Hn.
Qed.

(** A list of positions that are [gap] apart and end before [bound]
    has at most [(bound - first) / gap] elements. *)
Lemma apart_count (gap bound : Z) (ps : list Z) (lo : Z) :
  (0 <= gap)%Z ->
  apart gap ps = true ->
  Forall (fun p => (p + gap <= bound)%Z) ps ->
  match ps with
  | p :: _ => (lo <= p)%Z -> (lo + len ps * gap <= bound)%Z
  | [] => True
  end.
Proof.
  intros Hgap. revert lo. induction ps as [|p ps IH]; intros lo; [easy|].
  intros Hap Hb Hlo. inversion Hb as [|? ? Hp Hps]; subst.
  destruct ps as [|q ps].
  - unfold len. cbn [length]. lia.
  - rewrite apart_cons in Hap. apply andb_true_iff in Hap as [Hpq Hap].
    apply Z.leb_le in Hpq.
    specialize (IH (p + gap)%Z Hap Hps Hpq).
    unfold len in *. simpl length in *. nia.
Qed.

(** X2: the mentions of a brand take up no more room than the text has:
    the count times the length of the normalized name is at most the
    length of the text.  A text shorter than the normalized name, the
    empty text first, has the zero evidence. *)
Theorem mention_count_bound (text brand_name : str) :
  let m := _count_brand_mentions text brand_name in
  let n := len (_clean_brand_name brand_name) in
  (Mentions.mention_count m * n <= len text)%Z
  /\ ((len text < n)%Z -> m = Mentions.zero).
Proof.
  intros m n. subst m n.
  destruct (count_brand_mentions_cases text brand_name) as [E|[Hn E]];
    rewrite E.
  { split; [|reflexivity]. simpl. unfold len. lia. }
  cbn zeta. cbn [Mentions.mention_count].
  set (name := _clean_brand_name brand_name) in *.
  pose proof (finditer_fits name text) as Hfit.
  pose proof (scan_apart name text (seq 0 (S (length text))) 0) as Hap.
  fold (Re.finditer name text) in Hap.
  destruct (Re.finditer name text) as [|i matches] eqn:Em.
  { split; [|reflexivity]. unfold len. simpl. lia. }
  assert (Hfirst : (Z.of_nat i + len name <= len text)%Z).
  { inversion Hfit; subst. unfold len. lia. }
  split.
  - assert (Hall : Forall (fun p => (p + len name <= len text)%Z)
                          (map Z.of_nat (i :: matches))).
    { apply Forall_map. eapply Forall_impl; [|exact Hfit].
      intros k Hk. cbv beta in Hk. unfold len. lia. }
    assert (Hgap : (0 <= len name)%Z) by (unfold len; lia).
    pose proof (apart_count (len name) (len text)
                  (map Z.of_nat (i :: matches)) 0 Hgap Hap Hall) as H.
    cbn [map] in H. specialize (H ltac:(lia)).
    unfold len in *. cbn [length] in *. rewrite length_map in H. lia.
  - intros Hshort. unfold len in *. lia.
Qed.

(** *** Lower-casing the text *)














(* ================================================================== *)
(** ** Further properties of the response analyzer *)
(* ================================================================== *)

Lemma competitor_step_fst (content : str) (d : Dict.t Z)
    (details : list BrandMention.t) (c : Competitor.t) :
  fst (competitor_step content (d, details) c)
  = Dict.set d (Competitor.name c)
      (Mentions.mention_count
         (_count_brand_mentions content (Competitor.name c))).
Proof. unfold competitor_step. now destruct (0 <? _)%Z. Qed.

Lemma competitor_step_snd (content : str) (d : Dict.t Z)
    (details : list BrandMention.t) (c : Competitor.t) :
  snd (competitor_step content (d, details) c)
  = details ++ evidence content (Competitor.name c).
Proof.
  unfold competitor_step, evidence.
  destruct (0 <? _)%Z; simpl; [reflexivity|now rewrite app_nil_r].
Qed.

(** The evidence that the competitor loop collects: that of each
    competitor in turn. *)
Lemma competitor_loop_details (content : str)
    (competitors : list Competitor.t)
    (st : Dict.t Z * list BrandMention.t) :
  snd (fold_left (competitor_step content) competitors st)
  = snd st
    ++ flat_map (fun c => evidence content (Competitor.name c)) competitors.
Proof.
  revert st. induction competitors as [|c l IH]; intros [d details].
  - simpl. now rewrite app_nil_r.
  - cbn [fold_left flat_map]. rewrite IH.
    rewrite competitor_step_snd. cbn [snd]. now rewrite <- app_assoc.
Qed.

Lemma in_set {V} (d : Dict.t V) (k k' : str) (v v' : V) :
  In (k', v') (Dict.set d k v) -> (k' = k /\ v' = v) \/ In (k', v') d.
Proof.
  induction d as [|[k0 v0] d IH]; simpl.
  - intros [[= <- <-]|[]]. now left.
  - destruct (str_eqb k k0) eqn:E; simpl.
    + apply str_eqb_eq in E. subst k0.
      intros [[= <- <-]|H]; [now left|right; now right].
    + intros [H|H]; [right; now left|].
      apply IH in H as [H|H]; [now left|right; now right].
Qed.

(** The dictionary of the competitor loop does not depend on the
    evidence collected beside it. *)
Lemma competitor_loop_fst (content : str) (competitors : list Competitor.t)
    (st : Dict.t Z * list BrandMention.t) :
  fst (fold_left (competitor_step content) competitors st)
  = fold_left
      (fun d c =>
         Dict.set d (Competitor.name c)
           (Mentions.mention_count
              (_count_brand_mentions content (Competitor.name c))))
      competitors (fst st).
Proof.
  revert st. induction competitors as [|c l IH]; intros [d details];
    [reflexivity|].
  cbn [fold_left]. rewrite IH. f_equal. apply competitor_step_fst.
Qed.

Lemma in_keys_set {V} (d : Dict.t V) (k q : str) (v : V) :
  In q (Dict.keys (Dict.set d k v)) <-> In q (Dict.keys d) \/ q = k.
Proof.
  rewrite keys_set. unfold Dict.contains.
  destruct (Dict.get d k) eqn:E.
  - split; [now left|]. intros [H| ->]; [assumption|].
    destruct (in_dec (list_eq_dec ascii_dec) k (Dict.keys d)) as [Hin|Hin];
      [assumption|].
    apply get_absent in Hin. congruence.
  - rewrite in_app_iff. simpl. split.
    + intros [H|[<-|[]]]; [now left|now right].
    + intros [H| ->]; [now left|right; now left].
Qed.

Section CompetitorLoop.
Variable content : str.

Let record (d : Dict.t Z) (c : Competitor.t) : Dict.t Z :=
  Dict.set d (Competitor.name c)
    (Mentions.mention_count
       (_count_brand_mentions content (Competitor.name c))).

Lemma loop_keys_NoDup (competitors : list Competitor.t) (d : Dict.t Z) :
  NoDup (Dict.keys d) ->
  NoDup (Dict.keys (fold_left record competitors d)).
Proof.
  revert d. induction competitors as [|c l IH]; intros d H; [exact H|].
  cbn [fold_left]. apply IH. subst record. now apply keys_set_NoDup.
Qed.

Lemma loop_keys (competitors : list Competitor.t) (d : Dict.t Z) (k : str) :
  In k (Dict.keys (fold_left record competitors d))
  <-> In k (Dict.keys d) \/ In k (map Competitor.name competitors).
Proof.
  revert d. induction competitors as [|c l IH]; intros d.
  - simpl. tauto.
  - cbn [fold_left map]. rewrite IH. subst record. cbv beta.
    rewrite in_keys_set. simpl. intuition congruence.
Qed.

Lemma loop_values (competitors : list Competitor.t) (d : Dict.t Z)
    (k : str) (v : Z) :
  In (k, v) (fold_left record competitors d) ->
  In (k, v) d
  \/ v = Mentions.mention_count (_count_brand_mentions content k).
Proof.
  revert d. induction competitors as [|c l IH]; intros d; [now left|].
  cbn [fold_left]. intros H. apply IH in H as [H|H]; [|now right].
  subst record. cbv beta in H.
  apply in_set in H as [[-> ->]|H]; [now right|now left].
Qed.
End CompetitorLoop.

Lemma sum_zeros (xs : list Z) : Forall (fun v => v = 0%Z) xs -> sum xs = 0%Z.
Proof.
  induction 1 as [|x xs Hx _ IH]; [reflexivity|].
  rewrite sum_cons, Hx, IH. reflexivity.
Qed.

(** No brand has a mention in the empty text. *)
Lemma count_empty_text (brand_name : str) :
  _count_brand_mentions [] brand_name = Mentions.zero.
Proof.
  unfold _count_brand_mentions.
  destruct (_clean_brand_name brand_name) as [|c name]; [reflexivity|].
  destruct (_ || _); reflexivity.
Qed.

(** X4: a response whose content is empty is analysed into a record whose
    counts are all zero: no mention of the owner, zero for every
    competitor, a total of zero, and no evidence. *)
Theorem empty_response_all_zero (env : Env.t) (user : User.t)
    (competitors : list Competitor.t) (llm_response : LLMResponse.t)
    (api_key : option str) (enhanced_analysis : bool)
    (r : AnalyticsResult.t) :
  LLMResponse.response_content llm_response = [] ->
  outcome (analyze_response env user competitors llm_response api_key
                            enhanced_analysis) = inr r ->
  AnalyticsResult.user_brand_mentions r = 0%Z
  /\ Forall (fun v => v = 0%Z)
            (Dict.values (AnalyticsResult.competitor_mentions r))
  /\ AnalyticsResult.total_mentions r = 0%Z
  /\ AnalyticsResult.mention_details r = [].
Proof.
  intros Hempty H. apply analyze_response_returns in H as [m ->].
  unfold deterministic_record.
  cbn [AnalyticsResult.user_brand_mentions
       AnalyticsResult.competitor_mentions AnalyticsResult.total_mentions
       AnalyticsResult.mention_details].
  rewrite Hempty. change (lower []) with (@nil ascii).
  rewrite count_empty_text. cbn [Mentions.mention_count Mentions.zero].
  assert (Hvals : Forall (fun v => v = 0%Z)
                    (Dict.values
                       (fst (fold_left (competitor_step [])
                               competitors (Dict.empty Z, []))))).
  { unfold Dict.values. apply Forall_map, Forall_forall.
    intros [k v] Hin. rewrite competitor_loop_fst in Hin.
    apply loop_values in Hin as [[]| ->]. now rewrite count_empty_text. }
  repeat split.
  - exact Hvals.
  - now rewrite (sum_zeros _ Hvals).
  - rewrite competitor_loop_details. cbn [snd app Z.ltb Z.compare].
    clear Hvals. induction competitors as [|c l IH]; [reflexivity|].
    cbn [flat_map]. unfold evidence at 1. rewrite count_empty_text.
    exact IH.
Qed.

Lemma empty_response_all_zero_witness :
  let silent := Sample.response "r0" OPENAI "gpt-4" "" in
  let r :=
    deterministic_record Sample.joe [Sample.pizza_hut] silent (Some []) in
  LLMResponse.response_content silent = []
  /\ outcome (analyze_response Sample.env_down Sample.joe
                [Sample.pizza_hut] silent None false) = inr r
  /\ AnalyticsResult.user_brand_mentions r = 0%Z
  /\ Forall (fun v => v = 0%Z)
            (Dict.values (AnalyticsResult.competitor_mentions r))
  /\ AnalyticsResult.total_mentions r = 0%Z
  /\ AnalyticsResult.mention_details r = [].
Proof.
  intros silent r.
  split; [reflexivity|]. split; [vm_compute; reflexivity|].
  apply (empty_response_all_zero Sample.env_down Sample.joe
           [Sample.pizza_hut] silent None false r).
  - reflexivity.
  - vm_compute; reflexivity.
Defined.

Lemma mention_count_nonneg (text brand_name : str) :
  (0 <= Mentions.mention_count (_count_brand_mentions text brand_name))%Z.
Proof.
  unfold _count_brand_mentions. destruct (_ || _); simpl; [lia|].
  unfold len. lia.
Qed.

Lemma evidence_positive (content brand_name : str) :
  Forall (fun b =>
            BrandMention.brand_name b = brand_name
            /\ (0 < BrandMention.mention_count b)%Z
            /\ BrandMention.mention_count b
               = len (BrandMention.mention_positions b)
            /\ BrandMention.mention_count b
               = len (BrandMention.context_snippets b))
         (evidence content brand_name).
Proof.
  unfold evidence.
  destruct (Z.ltb_spec 0 (Mentions.mention_count
                            (_count_brand_mentions content brand_name)));
    constructor; [|constructor].
  cbn [BrandMention.brand_name BrandMention.mention_count
       BrandMention.mention_positions BrandMention.context_snippets].
  repeat split; try assumption.
  - unfold _count_brand_mentions. destruct (_ || _); simpl; [reflexivity|].
    unfold len. now rewrite length_map.
  - unfold _count_brand_mentions. destruct (_ || _); simpl; [reflexivity|].
    unfold len. now rewrite length_map.
Qed.

(** X5: the evidence of a record lists the owner first, when the owner is
    mentioned, then the competitors in the order of the roster, and only
    the brands with at least one mention; each entry has as many
    positions and snippets as its count says. *)
Theorem mention_details_order (env : Env.t) (user : User.t)
    (competitors : list Competitor.t) (llm_response : LLMResponse.t)
    (api_key : option str) (enhanced_analysis : bool)
    (r : AnalyticsResult.t) :
  outcome (analyze_response env user competitors llm_response api_key
                            enhanced_analysis) = inr r ->
  let content := lower (LLMResponse.response_content llm_response) in
  AnalyticsResult.mention_details r
  = evidence content (User.business_name user)
    ++ flat_map (fun c => evidence content (Competitor.name c)) competitors
  /\ Forall (fun b =>
               (0 < BrandMention.mention_count b)%Z
               /\ BrandMention.mention_count b
                  = len (BrandMention.mention_positions b)
               /\ BrandMention.mention_count b
                  = len (BrandMention.context_snippets b))
            (AnalyticsResult.mention_details r).
Proof.
  intros H content. apply analyze_response_returns in H as [m ->].
  assert (E : AnalyticsResult.mention_details
                (deterministic_record user competitors llm_response m)
              = evidence content (User.business_name user)
                ++ flat_map (fun c => evidence content (Competitor.name c))
                            competitors).
  { unfold deterministic_record.
    cbn [AnalyticsResult.mention_details].
    rewrite competitor_loop_details. reflexivity. }
  split; [exact E|]. rewrite E.
  apply Forall_app. split.
  - eapply Forall_impl; [|apply evidence_positive]. cbv beta. tauto.
  - apply Forall_flat_map, Forall_forall. intros c _.
    eapply Forall_impl; [|apply evidence_positive]. cbv beta. tauto.
Qed.

Lemma mention_details_order_witness :
  let r :=
    deterministic_record Sample.joe [Sample.pizza_hut] Sample.praise
                         (Some []) in
  outcome (analyze_response Sample.env_down Sample.joe [Sample.pizza_hut]
                            Sample.praise None true) = inr r
  /\ map BrandMention.brand_name (AnalyticsResult.mention_details r)
     = [lit "Joe's Pizza"; lit "Pizza Hut"]
  /\ Forall (fun b =>
               (0 < BrandMention.mention_count b)%Z
               /\ BrandMention.mention_count b
                  = len (BrandMention.mention_positions b)
               /\ BrandMention.mention_count b
                  = len (BrandMention.context_snippets b))
            (AnalyticsResult.mention_details r).
Proof.
  intros r.
  assert (H : outcome (analyze_response Sample.env_down Sample.joe
                         [Sample.pizza_hut] Sample.praise None true)
              = inr r) by (vm_compute; reflexivity).
  split; [exact H|]. split; [vm_compute; reflexivity|].
  exact (proj2 (mention_details_order Sample.env_down Sample.joe
                  [Sample.pizza_hut] Sample.praise None true r H)).
Defined.

(** X6: the dictionary [competitor_mentions] of a record has one key for
    each distinct name of the roster and no other key, so that a name
    which is not in the roster has no entry; every value is the count of
    its key in the lower-cased response, and none is negative. *)
Theorem competitor_mentions_keys (env : Env.t) (user : User.t)
    (competitors : list Competitor.t) (llm_response : LLMResponse.t)
    (api_key : option str) (enhanced_analysis : bool)
    (r : AnalyticsResult.t) :
  outcome (analyze_response env user competitors llm_response api_key
                            enhanced_analysis) = inr r ->
  let d := AnalyticsResult.competitor_mentions r in
  NoDup (Dict.keys d)
  /\ (forall k, In k (Dict.keys d)
                <-> In k (map Competitor.name competitors))
  /\ (forall k, ~ In k (map Competitor.name competitors) ->
                Dict.get d k = None)
  /\ Forall (fun '(k, v) => v = count_in llm_response k /\ (0 <= v)%Z)
            (Dict.items d).
Proof.
  intros H d. subst d. apply analyze_response_returns in H as [m ->].
  unfold deterministic_record.
  cbn [AnalyticsResult.competitor_mentions].
  rewrite competitor_loop_fst. cbn [fst].
  set (content := lower (LLMResponse.response_content llm_response)).
  assert (Hkeys : forall k,
             In k (Dict.keys
                     (fold_left
                        (fun d c =>
                           Dict.set d (Competitor.name c)
                             (Mentions.mention_count
                                (_count_brand_mentions content
                                   (Competitor.name c))))
                        competitors (Dict.empty Z)))
             <-> In k (map Competitor.name competitors)).
  { intros k. rewrite (loop_keys content competitors (Dict.empty Z) k).
    simpl. tauto. }
  repeat split.
  - apply (loop_keys_NoDup content competitors (Dict.empty Z)).
    constructor.
  - apply Hkeys.
  - apply Hkeys.
  - intros k Hk. apply get_absent. intros Hin. apply Hk. now apply Hkeys.
  - unfold Dict.items. apply Forall_forall. intros [k v] Hin.
    apply (loop_values content competitors (Dict.empty Z)) in Hin
      as [[]| ->].
    split; [reflexivity|apply mention_count_nonneg].
Qed.

Lemma competitor_mentions_keys_witness :
  let twice := [Sample.pizza_hut; Sample.competitor "Dominos";
                Sample.pizza_hut] in
  let r := deterministic_record Sample.joe twice Sample.praise (Some []) in
  outcome (analyze_response Sample.env_down Sample.joe twice
                            Sample.praise None true) = inr r
  /\ AnalyticsResult.competitor_mentions r
     = [(lit "Pizza Hut", 2%Z); (lit "Dominos", 0%Z)]
  /\ NoDup (Dict.keys (AnalyticsResult.competitor_mentions r))
  /\ Dict.get (AnalyticsResult.competitor_mentions r) (lit "Papa Johns")
     = None.
Proof.
  intros twice r.
  assert (H : outcome (analyze_response Sample.env_down Sample.joe twice
                         Sample.praise None true) = inr r)
    by (vm_compute; reflexivity).
  split; [exact H|]. split; [vm_compute; reflexivity|].
  destruct (competitor_mentions_keys Sample.env_down Sample.joe twice
              Sample.praise None true r H) as [Hnd [_ [Hnone _]]].
  split; [exact Hnd|]. apply Hnone.
  vm_compute. intros [E|[E|[E|[]]]]; discriminate E.
Defined.

(** *** The enrichment and its guard *)

(** X7: the model is asked only when enrichment is requested and a key
    that is not empty is given: without a key, with the empty key, or
    with enrichment off, the analysis calls nothing, logs nothing and
    returns the deterministic record with empty metadata, whatever the
    model and the parser would do. *)
Theorem analysis_without_model (env : Env.t) (user : User.t)
    (competitors : list Competitor.t) (llm_response : LLMResponse.t)
    (api_key : option str) (enhanced_analysis : bool) :
  enhanced_analysis && truthy api_key = false ->
  analyze_response env user competitors llm_response api_key
                   enhanced_analysis
  = ret (deterministic_record user competitors llm_response (Some [])).
Proof.
  intros H. rewrite analyze_response_unfold, H. reflexivity.
Qed.

Lemma analysis_without_model_witness :
  true && truthy (Some []) = false
  /\ analyze_response Sample.env_garbled Sample.joe [Sample.pizza_hut]
       Sample.praise (Some []) true
     = ret (deterministic_record Sample.joe [Sample.pizza_hut]
              Sample.praise (Some [])).
Proof.
  split; [reflexivity|].
  exact (analysis_without_model Sample.env_garbled Sample.joe
           [Sample.pizza_hut] Sample.praise (Some []) true eq_refl).
Defined.

(** X8: the enrichment never raises.  It returns the value parsed from
    the reply and logs nothing; or the raw reply under ["raw_analysis"]
    with one warning, when the reply is not JSON; or the text of the
    exception under ["error"] with one error record, in any other
    failure. *)
Theorem enhanced_analysis_total (env : Env.t) (user : User.t)
    (competitors : list Competitor.t) (response_content key : str) :
  let run := _enhanced_analysis env user competitors response_content key in
  let prompt :=
    analysis_prompt user (map Competitor.name competitors)
                    response_content in
  (exists text j,
      Env.generate_response env prompt key = inr (Some text)
      /\ Env.json_loads env text = inr j
      /\ run = ([], inr j))
  \/ (exists text msg,
         Env.generate_response env prompt key = inr (Some text)
         /\ Env.json_loads env text = inl (JSONDecodeError msg)
         /\ run = ([WarningUnparsableJson],
                   inr (JDict [(lit "raw_analysis", JString text)])))
  \/ (exists e,
         run = ([ErrorEnhancedFailed e],
                inr (JDict [(lit "error", JString (exc_str e))]))).
Proof.
  intros run prompt. subst run prompt. unfold _enhanced_analysis, call.
  destruct (Env.generate_response env _ key) as [e|[text|]] eqn:Eg; cbn.
  - right. right. now exists e.
  - destruct (Env.json_loads env text) as [e|j] eqn:Ej; cbn.
    + destruct e as [msg|msg|msg|msg]; cbn.
      * right. left. now exists text, msg.
      * right. right. now exists (TypeError msg).
      * right. right. now exists (ValidationError msg).
      * right. right. now exists (OtherException msg).
    + left. now exists text, j.
  - right. right.
    now exists (TypeError (lit "the JSON object must be str, bytes or bytearray, not NoneType")).
Qed.

Lemma enhanced_analysis_parsed (env : Env.t) (user : User.t)
    (competitors : list Competitor.t) (response_content key text : str)
    (j : json) :
  Env.generate_response env
    (analysis_prompt user (map Competitor.name competitors)
                     response_content) key = inr (Some text) ->
  Env.json_loads env text = inr j ->
  _enhanced_analysis env user competitors response_content key
  = ([], inr j).
Proof.
  intros Hgen Hloads. unfold _enhanced_analysis, call.
  rewrite Hgen. cbn. now rewrite Hloads.
Qed.

(** X9: when the reply of the model is a JSON object, the record carries
    this object as its metadata, and its counts and evidence are those of
    the analysis without enrichment. *)
Theorem enrichment_success (env : Env.t) (user : User.t)
    (competitors : list Competitor.t) (llm_response : LLMResponse.t)
    (key text : str) (d : Dict.t json) :
  key <> [] ->
  Env.generate_response env
    (enrichment_prompt user competitors llm_response) key
  = inr (Some text) ->
  Env.json_loads env text = inr (JDict d) ->
  degrades_to env user competitors llm_response key d.
Proof.
  intros Hkey Hgen Hloads. apply degrades_to_intro; [assumption|].
  unfold enrichment_prompt in Hgen.
  now rewrite (enhanced_analysis_parsed _ _ _ _ _ _ _ Hgen Hloads).
Qed.

Lemma enrichment_success_witness :
  let env :=
    Env.mk (fun _ _ => inr (Some (lit "{}")))
           (fun _ => inr (JDict [(lit "overall", JString (lit "fine"))]))
           (fun _ => inl (TypeError (lit "not a mapping"))) in
  degrades_to env Sample.joe [Sample.pizza_hut] Sample.praise (lit "sk-1")
              [(lit "overall", JString (lit "fine"))].
Proof.
  intros env.
  assert (Hkey : lit "sk-1" <> []) by discriminate.
  exact (enrichment_success env Sample.joe [Sample.pizza_hut]
           Sample.praise (lit "sk-1") (lit "{}")
           [(lit "overall", JString (lit "fine"))] Hkey eq_refl eq_refl).
Defined.

(** X10: the enrichment can make the analysis fail: when the reply of the
    model is JSON but neither an object nor null, and cannot be converted
    to a dictionary, building the record raises a validation error; the
    analysis logs it and raises it again, and no record is returned. *)
Theorem enrichment_non_object_fails (env : Env.t) (user : User.t)
    (competitors : list Competitor.t) (llm_response : LLMResponse.t)
    (key text : str) (v : json) (e : Exception) :
  key <> [] ->
  Env.generate_response env
    (enrichment_prompt user competitors llm_response) key
  = inr (Some text) ->
  Env.json_loads env text = inr v ->
  match v with JNull | JDict _ => False | _ => True end ->
  Env.dict_of env v = inl e ->
  analyze_response env user competitors llm_response (Some key) true
  = ([ErrorAnalyticsFailed (LLMResponse.id llm_response)
        (ValidationError (exc_str e))],
     inl (ValidationError (exc_str e))).
Proof.
  intros Hkey Hgen Hloads Hv Hdict. rewrite analyze_response_unfold.
  destruct key as [|c key]; [contradiction|]. cbn [andb truthy].
  unfold enrichment_prompt in Hgen.
  rewrite (enhanced_analysis_parsed _ _ _ _ _ _ _ Hgen Hloads).
  destruct v; try contradiction;
    unfold bind, try_except, validate_metadata; cbn; rewrite Hdict;
    reflexivity.
Qed.

Lemma enrichment_non_object_fails_witness :
  let env :=
    Env.mk (fun _ _ => inr (Some (lit "42")))
           (fun _ => inr (JNumber (lit "42")))
           (fun _ => inl (TypeError (lit "not iterable"))) in
  outcome (analyze_response env Sample.joe [Sample.pizza_hut]
             Sample.praise (Some (lit "sk-1")) true)
  = inl (ValidationError (lit "not iterable")).
Proof.
  intros env.
  assert (Hkey : lit "sk-1" <> []) by discriminate.
  rewrite (enrichment_non_object_fails env Sample.joe [Sample.pizza_hut]
             Sample.praise (lit "sk-1") (lit "42") (JNumber (lit "42"))
             (TypeError (lit "not iterable")) Hkey eq_refl eq_refl I
             eq_refl).
  reflexivity.
Defined.

(** X11: the batch of the service never asks the model: it returns one
    record for each response, in the order of the responses, each with
    empty metadata; it logs nothing and raises nothing, and neither the
    key nor the model can change its result. *)
Theorem batch_is_deterministic (env env' : Env.t) (user : User.t)
    (competitors : list Competitor.t) (llm_responses : list LLMResponse.t)
    (api_key api_key' : option str) :
  let batch :=
    batch_analyze_responses env user competitors llm_responses api_key in
  batch = batch_analyze_responses env' user competitors llm_responses
                                  api_key'
  /\ logged batch = []
  /\ exists results,
       outcome batch = inr results
       /\ len results = len llm_responses
       /\ map AnalyticsResult.llm_response_id results
          = map LLMResponse.id llm_responses
       /\ Forall (fun r => AnalyticsResult.analysis_metadata r = Some [])
                 results.
Proof.
  intros batch. subst batch. rewrite !batch_analyze_responses_all.
  split; [reflexivity|]. split; [reflexivity|].
  eexists. split; [reflexivity|]. repeat split.
  - unfold len. now rewrite length_map.
  - rewrite map_map. reflexivity.
  - apply Forall_map, Forall_forall. now intros r _.
Qed.

(* ================================================================== *)
(** ** Further properties of the metrics aggregator *)
(* ================================================================== *)

Lemma unit_quotient (a b : Z) :
  (0 <= a <= b)%Z -> (0 < b)%Z ->
  (0 <= inject_Z a / inject_Z b /\ inject_Z a / inject_Z b <= 1)%Q.
Proof.
  intros Ha Hb. destruct b as [|p|p]; try lia.
  unfold Qdiv, Qinv, Qmult, Qle, inject_Z. simpl. split; nia.
Qed.

(** X12: the owner mention rate is between 0 and 1, for every sequence
    of records, the empty one too. *)
Theorem owner_mention_rate_unit
    (analytics_results : list AnalyticsResult.t) :
  (0 <= Metrics.user_mention_rate
          (calculate_performance_metrics analytics_results)
   /\ Metrics.user_mention_rate
        (calculate_performance_metrics analytics_results) <= 1)%Q.
Proof.
  destruct analytics_results as [|r l].
  - simpl. split; unfold Qle; simpl; lia.
  - unfold calculate_performance_metrics.
    cbn [Metrics.user_mention_rate].
    replace (0 <? len (r :: l))%Z with true
      by (symmetry; apply Z.ltb_lt; unfold len; simpl length; lia).
    unfold truediv. rewrite sum_ones. apply unit_quotient.
    + pose proof (filter_length_le
                    (fun result =>
                       (0 <? AnalyticsResult.user_brand_mentions result)%Z)
                    (r :: l)).
      unfold len. lia.
    + unfold len. simpl length. lia.
Qed.

(** *** The counter of competitor mentions *)

(** The two nested loops run over the entries of all the records. *)
Lemma count_competitors_flat (analytics_results : list AnalyticsResult.t) :
  count_competitors analytics_results
  = fold_left tally
      (concat (map (fun r =>
                      Dict.items (AnalyticsResult.competitor_mentions r))
                   analytics_results))
      (Dict.empty Z).
Proof.
  unfold count_competitors. generalize (Dict.empty Z).
  induction analytics_results as [|r l IH]; intros c; [reflexivity|].
  cbn [fold_left map concat]. rewrite fold_left_app. apply IH.
Qed.

Lemma get_add (c : Counter.t) (k q : str) (n : Z) :
  Dict.get (Counter.add c k n) q
  = if str_eqb q k then Some (running c k + n)%Z else Dict.get c q.
Proof. unfold Counter.add, running. now rewrite get_set. Qed.

(** The running total of a name is the sum of the counts recorded
    under it. *)
Lemma counter_get (es : list (str * Z)) (c : Counter.t) (k : str) :
  Dict.get (fold_left tally es c) k
  = match filter (fun kv => str_eqb (fst kv) k) es with
    | [] => Dict.get c k
    | l => Some (running c k + sum (map snd l))%Z
    end.
Proof.
  revert c. induction es as [|[k' n] es IH]; intros c; [reflexivity|].
  cbn [fold_left filter fst]. rewrite IH. cbn [tally].
  unfold running at 1. rewrite get_add, (str_eqb_sym k k').
  destruct (str_eqb k' k) eqn:E; [|reflexivity].
  apply str_eqb_eq in E. subst k'.
  destruct (filter _ es) as [|e l]; f_equal; cbn [map snd];
    rewrite ?sum_cons; change (sum []) with 0%Z; lia.
Qed.

Lemma values_set_sum (c : Counter.t) (k : str) (v : Z) :
  sum (Dict.values (Dict.set c k v))
  = (sum (Dict.values c) - running c k + v)%Z.
Proof.
  unfold running, Dict.values. induction c as [|[k' v'] c IH]; simpl.
  - rewrite sum_cons. change (sum []) with 0%Z. lia.
  - destruct (str_eqb k k'); simpl; rewrite !sum_cons; [lia|].
    rewrite IH. lia.
Qed.

(** The counter loses no count: its values add up to all the counts
    recorded. *)
Lemma counter_sum (es : list (str * Z)) (c : Counter.t) :
  sum (Dict.values (fold_left tally es c))
  = (sum (Dict.values c) + sum (map snd es))%Z.
Proof.
  revert c. induction es as [|[k n] es IH]; intros c.
  - simpl. change (sum []) with 0%Z. lia.
  - cbn [fold_left map snd]. rewrite IH. cbn [tally].
    unfold Counter.add. rewrite values_set_sum, sum_cons.
    unfold running. lia.
Qed.

Lemma counter_keys_NoDup (es : list (str * Z)) (c : Counter.t) :
  NoDup (Dict.keys c) -> NoDup (Dict.keys (fold_left tally es c)).
Proof.
  revert c. induction es as [|[k n] es IH]; intros c H; [exact H|].
  cbn [fold_left]. apply IH. cbn [tally]. now apply keys_set_NoDup.
Qed.

(** X13: the counter adds up, it does not replace: the running total of
    a competitor is the sum of the counts recorded under its name in all
    the records, and a name that no record has is absent. *)
Theorem counter_running_total
    (analytics_results : list AnalyticsResult.t) (k : str) :
  Dict.get (count_competitors analytics_results) k
  = match entries_named k analytics_results with
    | [] => None
    | entries => Some (sum (map snd entries))
    end.
Proof.
  rewrite count_competitors_flat, counter_get. unfold entries_named.
  destruct (filter _ _); reflexivity.
Qed.

Lemma sum_concat_items (analytics_results : list AnalyticsResult.t) :
  sum (map snd
         (concat (map (fun r =>
                         Dict.items (AnalyticsResult.competitor_mentions r))
                      analytics_results)))
  = sum (map (fun r =>
                sum (Dict.values (AnalyticsResult.competitor_mentions r)))
             analytics_results).
Proof.
  induction analytics_results as [|r l IH]; [reflexivity|].
  cbn [map concat]. rewrite map_app, sum_app, sum_cons, IH. reflexivity.
Qed.

(** X14: the metrics lose no mention: [total_competitor_mentions] is the
    sum, over the records, of the values of their [competitor_mentions];
    the dictionary for no record has no such key. *)
Theorem total_competitor_mentions_sum
    (analytics_results : list AnalyticsResult.t) :
  Metrics.total_competitor_mentions
    (calculate_performance_metrics analytics_results)
  = match analytics_results with
    | [] => None
    | _ =>
        Some (sum (map (fun r =>
                          sum (Dict.values
                                 (AnalyticsResult.competitor_mentions r)))
                       analytics_results))
    end.
Proof.
  destruct analytics_results as [|r l]; [reflexivity|].
  unfold calculate_performance_metrics.
  cbn [Metrics.total_competitor_mentions]. f_equal.
  rewrite count_competitors_flat, counter_sum, sum_concat_items.
  reflexivity.
Qed.

(** *** Ranking *)

Lemma descending_cons (a b : Z) (l : list Z) :
  descending (a :: b :: l) = ((b <=? a)%Z && descending (b :: l)).
Proof. reflexivity. Qed.

Lemma descending_tail (a : Z) (l : list Z) :
  descending (a :: l) = true -> descending l = true.
Proof.
  destruct l as [|b l]; [reflexivity|].
  rewrite descending_cons. intros H. now apply andb_true_iff in H.
Qed.

(** The head of a descending list is its largest element. *)
Lemma descending_head (a : Z) (l : list Z) :
  descending (a :: l) = true -> Forall (fun x => (x <= a)%Z) l.
Proof.
  revert a. induction l as [|b l IH]; intros a H; [constructor|].
  rewrite descending_cons in H. apply andb_true_iff in H as [Hba H].
  apply Z.leb_le in Hba. constructor; [assumption|].
  eapply Forall_impl; [|apply (IH b H)]. intros x Hx. cbv beta in Hx. lia.
Qed.

Lemma descending_firstn (n : nat) (l : list Z) :
  descending l = true -> descending (firstn n l) = true.
Proof.
  revert l. induction n as [|n IH]; intros [|a l] H; try reflexivity.
  cbn [firstn]. specialize (IH l (descending_tail _ _ H)).
  destruct n as [|n]; [reflexivity|].
  destruct l as [|b l]; [reflexivity|].
  cbn [firstn] in *. rewrite descending_cons in *.
  apply andb_true_iff in H as [Hba _]. now rewrite Hba, IH.
Qed.

(** In a descending list, what comes later is not larger. *)
Lemma descending_split (a b : list Z) :
  descending (a ++ b) = true ->
  Forall (fun y => Forall (fun x => (y <= x)%Z) a) b.
Proof.
  induction a as [|x a IH]; intros H.
  - apply Forall_forall. intros y _. constructor.
  - cbn [app] in H. pose proof (descending_head _ _ H) as Hx.
    specialize (IH (descending_tail _ _ H)).
    apply Forall_app in Hx as [_ Hx].
    rewrite Forall_forall in *. intros y Hy.
    constructor; [now apply Hx|now apply IH].
Qed.

Lemma insert_perm (x : str * Z) (l : list (str * Z)) :
  Permutation (Counter.insert x l) (x :: l).
Proof.
  induction l as [|y l IH]; simpl; [reflexivity|].
  destruct (snd x <? snd y)%Z; [|reflexivity].
  rewrite IH. apply perm_swap.
Qed.

Lemma sorted_desc_perm (l : list (str * Z)) :
  Permutation (Counter.sorted_desc l) l.
Proof.
  induction l as [|x l IH]; simpl; [reflexivity|].
  rewrite insert_perm. now constructor.
Qed.

Lemma insert_descending (x : str * Z) (l : list (str * Z)) :
  descending (map snd l) = true ->
  descending (map snd (Counter.insert x l)) = true.
Proof.
  induction l as [|y l IH]; intros H; [reflexivity|].
  cbn [Counter.insert]. destruct (Z.ltb_spec (snd x) (snd y)) as [Hlt|Hge].
  - cbn [map] in *. specialize (IH (descending_tail _ _ H)).
    destruct l as [|z l].
    + cbn [Counter.insert map]. rewrite descending_cons.
      apply andb_true_iff. split; [apply Z.leb_le; lia|reflexivity].
    + cbn [Counter.insert] in *.
      cbn [map] in H. rewrite descending_cons in H.
      apply andb_true_iff in H as [Hzy _]. apply Z.leb_le in Hzy.
      destruct (snd x <? snd z)%Z; cbn [map] in *;
        rewrite descending_cons; apply andb_true_iff;
        (split; [apply Z.leb_le; lia|exact IH]).
  - cbn [map]. rewrite descending_cons. apply andb_true_iff.
    split; [apply Z.leb_le; lia|exact H].
Qed.

Lemma sorted_desc_descending (l : list (str * Z)) :
  descending (map snd (Counter.sorted_desc l)) = true.
Proof.
  induction l as [|x l IH]; [reflexivity|].
  cbn [Counter.sorted_desc]. now apply insert_descending.
Qed.

(** Insertion keeps the entries of one count in their order. *)
Lemma insert_stable (v : Z) (x : str * Z) (l : list (str * Z)) :
  filter (fun e => (snd e =? v)%Z) (Counter.insert x l)
  = filter (fun e => (snd e =? v)%Z) (x :: l).
Proof.
  induction l as [|y l IH]; [reflexivity|].
  cbn [Counter.insert]. destruct (Z.ltb_spec (snd x) (snd y)) as [Hlt|Hge];
    [|reflexivity].
  cbn [filter] in *. rewrite IH.
  destruct (Z.eqb_spec (snd x) v), (Z.eqb_spec (snd y) v);
    try reflexivity.
  lia.
Qed.

Lemma sorted_desc_stable (v : Z) (l : list (str * Z)) :
  filter (fun e => (snd e =? v)%Z) (Counter.sorted_desc l)
  = filter (fun e => (snd e =? v)%Z) l.
Proof.
  induction l as [|x l IH]; [reflexivity|].
  cbn [Counter.sorted_desc]. rewrite insert_stable.
  cbn [filter]. now rewrite IH.
Qed.

(** X15: [Counter.most_common]: the entries of the counter ranked by
    decreasing count, entries of equal count staying in the order in
    which the counter met them; the [n] entries returned are the first
    ones of this ranking, so that no entry left out has a larger count
    than an entry returned, and all the entries are returned when there
    are at most [n]. *)
Theorem most_common_ranking (c : Counter.t) (n : nat) :
  let ranking := Counter.sorted_desc (Dict.items c) in
  Permutation ranking (Dict.items c)
  /\ descending (map snd ranking) = true
  /\ (forall v,
         filter (fun e => (snd e =? v)%Z) ranking
         = filter (fun e => (snd e =? v)%Z) (Dict.items c))
  /\ (exists rest,
         ranking = Counter.most_common c n ++ rest
         /\ Forall (fun out =>
                      Forall (fun kept => (snd out <= snd kept)%Z)
                             (Counter.most_common c n))
                   rest)
  /\ ((length c <= n)%nat -> Counter.most_common c n = ranking).
Proof.
  intros ranking. subst ranking. unfold Counter.most_common.
  split; [apply sorted_desc_perm|].
  split; [apply sorted_desc_descending|].
  split; [intros v; apply sorted_desc_stable|].
  split.
  - exists (skipn n (Counter.sorted_desc (Dict.items c))).
    split; [now rewrite firstn_skipn|].
    pose proof (sorted_desc_descending (Dict.items c)) as H.
    rewrite <- (firstn_skipn n (Counter.sorted_desc (Dict.items c))) in H
      at 1.
    rewrite map_app in H. apply descending_split in H.
    rewrite Forall_forall in *. intros out Hout.
    specialize (H (snd out) (in_map snd _ _ Hout)).
    rewrite Forall_forall in *. intros kept Hkept.
    apply (H (snd kept)). now apply in_map.
  - intros Hn. apply firstn_all2.
    rewrite (Permutation_length (sorted_desc_perm (Dict.items c))).
    exact Hn.
Qed.

Lemma in_get {V} (d : Dict.t V) (k : str) (v : V) :
  NoDup (Dict.keys d) -> In (k, v) d -> Dict.get d k = Some v.
Proof.
  induction d as [|[k' v'] d IH]; simpl; [easy|].
  intros Hnd [[= -> ->]|Hin].
  - now rewrite str_eqb_refl.
  - inversion Hnd as [|? ? Hk Hnd']; subst.
    destruct (str_eqb k k') eqn:E; [|now apply IH].
    apply str_eqb_eq in E. subst k'. elim Hk.
    change k with (fst (k, v)). now apply in_map.
Qed.

Lemma in_firstn {X : Type} (n : nat) (l : list X) (x : X) :
  In x (firstn n l) -> In x l.
Proof.
  intros H. rewrite <- (firstn_skipn n l). apply in_or_app. now left.
Qed.

Lemma NoDup_firstn {X : Type} (n : nat) (l : list X) :
  NoDup l -> NoDup (firstn n l).
Proof.
  intros H. rewrite <- (firstn_skipn n l) in H.
  now apply NoDup_app_remove_r in H.
Qed.

(** X16: [top_competitors] names at most ten competitors, each once, by
    decreasing total; for each it gives the running total that the counter
    has for that name and, as its rate, this total divided by the number
    of records. *)
Theorem top_competitors_ranked
    (analytics_results : list AnalyticsResult.t) :
  let top :=
    Metrics.top_competitors
      (calculate_performance_metrics analytics_results) in
  (length top <= 10)%nat
  /\ descending (map Metrics.total_mentions top) = true
  /\ NoDup (map Metrics.name top)
  /\ Forall
       (fun e =>
          Dict.get (count_competitors analytics_results) (Metrics.name e)
          = Some (Metrics.total_mentions e)
          /\ Metrics.mention_rate e
             = (inject_Z (Metrics.total_mentions e)
                / inject_Z (len analytics_results))%Q)
       top.
Proof.
  intros top. subst top.
  destruct analytics_results as [|r l].
  { simpl. repeat split; [lia|constructor|constructor]. }
  set (rs := r :: l). unfold calculate_performance_metrics. subst rs.
  cbn [Metrics.top_competitors].
  set (c := count_competitors (r :: l)).
  assert (Hnd : NoDup (Dict.keys c)).
  { subst c. rewrite count_competitors_flat.
    apply counter_keys_NoDup. constructor. }
  unfold Counter.most_common, Dict.items.
  set (s := Counter.sorted_desc c).
  assert (Hperm : Permutation s c) by apply sorted_desc_perm.
  repeat split.
  - rewrite length_map. apply firstn_le_length.
  - rewrite map_map.
    rewrite (map_ext _ snd) by (now intros [k v]).
    rewrite <- firstn_map. apply descending_firstn.
    apply sorted_desc_descending.
  - rewrite map_map.
    rewrite (map_ext _ fst) by (now intros [k v]).
    rewrite <- firstn_map. apply NoDup_firstn.
    eapply Permutation_NoDup; [|exact Hnd].
    symmetry. apply Permutation_map. exact Hperm.
  - apply Forall_map, Forall_forall. intros [k v] Hin.
    cbn [Metrics.name Metrics.total_mentions Metrics.mention_rate].
    split; [|reflexivity].
    apply in_get; [exact Hnd|].
    eapply Permutation_in; [exact Hperm|].
    eapply in_firstn. exact Hin.
Qed.

(* ================================================================== *)
(** ** Further properties of the model comparator *)
(* ================================================================== *)

(** A group of the grouping loop is not empty, and its key is the key of
    the response of one of its records. *)
Lemma group_by_model_entry (analytics_results : list AnalyticsResult.t)
    (llm_responses : list LLMResponse.t) (k : str)
    (g : list AnalyticsResult.t) :
  In (k, g) (group_by_model analytics_results llm_responses) ->
  g = filter (in_group llm_responses k) analytics_results
  /\ (1 <= len g)%Z
  /\ exists r resp,
       In r analytics_results
       /\ In resp llm_responses
       /\ find_response llm_responses r = Some resp
       /\ k = model_key_of (LLMResponse.provider resp)
                           (LLMResponse.model resp).
Proof.
  intros Hin. unfold group_by_model in *.
  assert (Hnd : NoDup (Dict.keys
                         (fold_left (group_step llm_responses)
                            analytics_results
                            (Dict.empty (list AnalyticsResult.t))))).
  { apply keys_fold_NoDup. constructor. }
  pose proof (in_get _ _ _ Hnd Hin) as Hget.
  rewrite get_fold in Hget.
  destruct (filter (in_group llm_responses k) analytics_results)
    as [|r g'] eqn:Ef; [discriminate|].
  cbn [group_of Dict.get Dict.empty app] in Hget.
  injection Hget as <-.
  split; [reflexivity|]. split; [unfold len; simpl length; lia|].
  assert (Hr : In r (filter (in_group llm_responses k) analytics_results))
    by (rewrite Ef; now left).
  apply filter_In in Hr as [Hr Hk].
  unfold in_group, key_of in Hk.
  destruct (find_response llm_responses r) as [resp|] eqn:Efind;
    [|discriminate].
  apply str_eqb_eq in Hk. exists r, resp. repeat split; auto.
  unfold find_response in Efind. now apply find_some in Efind.
Qed.

(** X17: every entry of the comparison stands for at least one record:
    its [total_responses] is at least 1, and its key is made of the
    provider and the model of a response that was supplied.  When no
    record has a response, when there is no record or no response in
    particular, the comparison is empty. *)
Theorem comparison_entries
    (analytics_results : list AnalyticsResult.t)
    (llm_responses : list LLMResponse.t) :
  let comparison :=
    compare_model_performance analytics_results llm_responses in
  Forall
    (fun '(k, m) =>
       (1 <= Metrics.total_responses m)%Z
       /\ exists resp,
            In resp llm_responses
            /\ k = model_key_of (LLMResponse.provider resp)
                                (LLMResponse.model resp))
    (Dict.items comparison)
  /\ (filter (resolved llm_responses) analytics_results = [] ->
      comparison = []).
Proof.
  intros comparison. subst comparison.
  rewrite compare_model_performance_eq. unfold Dict.items. split.
  - apply Forall_map, Forall_forall. intros [k g] Hin.
    apply group_by_model_entry in Hin as [_ [Hlen [r [resp H]]]].
    rewrite total_responses_len. split; [exact Hlen|].
    exists resp. tauto.
  - intros Hnone.
    destruct (group_by_model analytics_results llm_responses)
      as [|[k g] groups] eqn:E; [reflexivity|].
    assert (Hin : In (k, g)
                    (group_by_model analytics_results llm_responses))
      by (rewrite E; now left).
    apply group_by_model_entry in Hin as [_ [_ [r [resp [Hr [_ [Hf _]]]]]]].
    assert (Hres : In r (filter (resolved llm_responses) analytics_results)).
    { apply filter_In. split; [exact Hr|]. unfold resolved. now rewrite Hf. }
    rewrite Hnone in Hres. contradiction.
Qed.

(* ================================================================== *)
(** ** The route of the model performance *)
(* ================================================================== *)

























(* ================================================================== *)
(** ** The parsing of generated prompts *)
(* ================================================================== *)

Lemma lstrip_chars_head (chars s : str) :
  match lstrip_chars chars s with
  | c :: _ => existsb (Ascii.eqb c) chars = false
  | [] => True
  end.
Proof.
  induction s as [|c s IH]; simpl; [exact I|].
  destruct (existsb (Ascii.eqb c) chars) eqn:E; [exact IH|exact E].
Qed.

Lemma lstrip_chars_suffix (chars s : str) :
  exists pre, s = pre ++ lstrip_chars chars s.
Proof.
  induction s as [|c s [pre IH]]; simpl; [now exists []|].
  destruct (existsb (Ascii.eqb c) chars).
  - exists (c :: pre). simpl. now f_equal.
  - now exists [].
Qed.

(** What [strip(chars)] returns neither begins nor ends with one of the
    characters. *)
Lemma strip_chars_ends (chars s : str) :
  match strip_chars chars s with
  | c :: _ => existsb (Ascii.eqb c) chars = false
  | [] => True
  end
  /\ match rev (strip_chars chars s) with
     | c :: _ => existsb (Ascii.eqb c) chars = false
     | [] => True
     end.
Proof.
  unfold strip_chars. set (y := lstrip_chars chars s). split.
  - destruct (lstrip_chars_suffix chars (rev y)) as [pre E].
    apply (f_equal (@rev ascii)) in E.
    rewrite rev_involutive, rev_app_distr in E.
    destruct (rev (lstrip_chars chars (rev y))) as [|c r]; [exact I|].
    pose proof (lstrip_chars_head chars s) as H. fold y in H.
    rewrite E in H. exact H.
  - rewrite rev_involutive. apply lstrip_chars_head.
Qed.

Lemma valid_prompt_clean (prompt : json) :
  Forall (fun p => (5 < len p)%Z /\ unquoted p = true)
         (valid_prompt prompt).
Proof.
  destruct prompt as [| | |s| |]; try constructor.
  unfold valid_prompt. destruct (strip s) as [|c t] eqn:Es; [constructor|].
  destruct (Z.ltb_spec 5 (len (strip_chars quotes (c :: t))));
    constructor; [|constructor].
  split; [assumption|].
  destruct (strip_chars_ends quotes (c :: t)) as [Hh Hl].
  unfold unquoted.
  destruct (strip_chars quotes (c :: t)) as [|x r]; [reflexivity|].
  rewrite Hh. cbn [negb andb].
  destruct (rev (x :: r)); [reflexivity|]. now rewrite Hl.
Qed.

(** X21: every prompt returned by the parsing has more than five
    characters and neither begins nor ends with a quote character,
    whatever the reply and the parser are. *)
Theorem parsed_prompts_clean (env : Env.t) (response_content : str) :
  Forall (fun p => (5 < len p)%Z /\ unquoted p = true)
         (snd (_parse_prompts_response env response_content)).
Proof.
  unfold _parse_prompts_response.
  destruct (_ && _); [|constructor].
  destruct (Env.json_loads env _) as [[]|v]; try constructor.
  destruct (iterate v) as [e|items]; [constructor|].
  cbn [snd]. apply Forall_flat_map, Forall_forall. intros item _.
  apply valid_prompt_clean.
Qed.

(** *** The fragment handed to the parser *)

Lemma find_from_spec (c : ascii) (s : str) (i : Z) :
  (~ In c s /\ find_from c s i = (-1)%Z)
  \/ exists pre post,
       s = pre ++ c :: post /\ ~ In c pre
       /\ find_from c s i = (i + len pre)%Z.
Proof.
  revert i. induction s as [|x s IH]; intros i.
  - left. split; [easy|reflexivity].
  - cbn [find_from]. destruct (Ascii.eqb x c) eqn:E.
    + apply Ascii.eqb_eq in E. subst x. right. exists [], s.
      split; [reflexivity|]. split; [easy|]. unfold len. simpl. lia.
    + assert (Hne : x <> c) by (intros ->; now rewrite Ascii.eqb_refl in E).
      destruct (IH (i + 1)%Z) as [[Hnot Hf]|[pre [post [Hs [Hnot Hf]]]]].
      * left. split; [|exact Hf]. intros [H|H]; [contradiction|auto].
      * right. exists (x :: pre), post. split; [now rewrite Hs|].
        split; [intros [H|H]; [contradiction|auto]|].
        rewrite Hf. unfold len. simpl length. lia.
Qed.

Lemma rfind_from_spec (c : ascii) (s : str) (i last : Z) :
  (~ In c s /\ rfind_from c s i last = last)
  \/ exists pre post,
       s = pre ++ c :: post /\ ~ In c post
       /\ rfind_from c s i last = (i + len pre)%Z.
Proof.
  revert i last. induction s as [|x s IH]; intros i last.
  - left. split; [easy|reflexivity].
  - cbn [rfind_from].
    destruct (IH (i + 1)%Z (if Ascii.eqb x c then i else last))
      as [[Hnot Hf]|[pre [post [Hs [Hnot Hf]]]]].
    + destruct (Ascii.eqb x c) eqn:E.
      * apply Ascii.eqb_eq in E. subst x. right. exists [], s.
        split; [reflexivity|]. split; [exact Hnot|].
        rewrite Hf. unfold len. simpl. lia.
      * left. split; [|exact Hf].
        intros [H|H]; [|auto]. subst x. now rewrite Ascii.eqb_refl in E.
    + right. exists (x :: pre), post. split; [now rewrite Hs|].
      split; [exact Hnot|]. rewrite Hf. unfold len. simpl length. lia.
Qed.

Lemma slice_middle {X : Type} (pre j post : list X) :
  slice (pre ++ j ++ post) (len pre) (len pre + len j) = j.
Proof.
  unfold slice, clamp_index, len. rewrite !length_app.
  destruct (Z.ltb_spec (Z.of_nat (length pre)) 0); [lia|].
  destruct (Z.ltb_spec (Z.of_nat (length pre) + Z.of_nat (length j)) 0);
    [lia|].
  rewrite !Z.min_l by lia.
  replace (Z.to_nat (Z.of_nat (length pre) + Z.of_nat (length j)
                     - Z.of_nat (length pre))) with (length j) by lia.
  rewrite Nat2Z.id, skipn_app, skipn_all, Nat.sub_diag. cbn [skipn app].
  rewrite firstn_app, firstn_all, Nat.sub_diag. cbn [firstn].
  now rewrite app_nil_r.
Qed.

(** X22: the parsing looks at one fragment of the stripped reply only:
    the one that runs from the first opening bracket to the last closing
    bracket.  When the reply has no such fragment (no opening bracket, or
    no closing bracket after the first opening one), no prompt is
    returned, one warning is logged and the parser is not asked;
    otherwise the outcome is decided by what the parser makes of this
    fragment. *)
Theorem parse_prompts_fragment (response_content : str) :
  (forall env,
      _parse_prompts_response env response_content
      = ([WarningNoJsonArray], []))
  \/ exists pre mid post,
       strip response_content = pre ++ ("["%char :: mid ++ ["]"%char]) ++ post
       /\ ~ In "["%char pre
       /\ ~ In "]"%char post
       /\ forall env,
            _parse_prompts_response env response_content
            = after_loading response_content
                (Env.json_loads env ("["%char :: mid ++ ["]"%char])).
Proof.
  unfold _parse_prompts_response, find_char, rfind_char.
  set (s := strip response_content).
  destruct (find_from_spec "["%char s 0)
    as [[_ Hf]|[pre1 [post1 [Hs1 [Hnot1 Hf]]]]]; rewrite Hf.
  { left. reflexivity. }
  destruct (rfind_from_spec "]"%char s 0 (-1))
    as [[_ Hr]|[pre2 [post2 [Hs2 [Hnot2 Hr]]]]]; rewrite Hr.
  { left. intros env.
    destruct (Z.ltb_spec (0 + len pre1) (-1 + 1)) as [H|H];
      [unfold len in H; lia|].
    now rewrite andb_false_r. }
  destruct (Z.ltb_spec (0 + len pre1) (0 + len pre2 + 1)) as [Hlt|Hge].
  2:{ left. intros env. now rewrite andb_false_r. }
  right.
  assert (Hmid : exists mid,
             pre2 = pre1 ++ "["%char :: mid
             /\ post1 = mid ++ "]"%char :: post2).
  { assert (E : pre1 ++ "["%char :: post1 = pre2 ++ "]"%char :: post2)
      by congruence.
    apply app_eq_app in E as [l [[Hp Hq]|[Hp Hq]]].
    - assert (Hl : l = []).
      { apply (f_equal (@length ascii)) in Hp. rewrite length_app in Hp.
        unfold len in Hlt. destruct l; [reflexivity|simpl in Hp; lia]. }
      subst l. discriminate Hq.
    - destruct l as [|x mid]; [discriminate Hq|].
      injection Hq as <- Hq. exists mid. split; assumption. }
  destruct Hmid as [mid [Hp2 Hp1]].
  exists pre1, mid, post2.
  assert (Hs : s = pre1 ++ ("["%char :: mid ++ ["]"%char]) ++ post2).
  { rewrite Hs1, Hp1. cbn [app]. now rewrite <- app_assoc. }
  split; [exact Hs|]. split; [exact Hnot1|]. split; [exact Hnot2|].
  intros env.
  replace (negb (0 + len pre1 =? -1)%Z) with true
    by (symmetry; apply negb_true_iff, Z.eqb_neq; unfold len; lia).
  cbn [andb].
  replace (slice s (0 + len pre1) (0 + len pre2 + 1))
    with ("["%char :: mid ++ ["]"%char]); [reflexivity|].
  rewrite Hs at 1.
  replace (0 + len pre2 + 1)%Z
    with (len pre1 + len ("["%char :: mid ++ ["]"%char]))%Z.
  - rewrite Z.add_0_l. now rewrite slice_middle.
  - rewrite Hp2. unfold len. cbn [length].
    rewrite !length_app. cbn [length]. lia.
Qed.

(* ================================================================== *)
(** ** The batch of generated responses *)
(* ================================================================== *)

Lemma append_loop {X Y : Type} (x : X) (l : list Y) (acc : list X) :
  fold_left (fun acc _ => acc ++ [x]) l acc = acc ++ repeat x (length l).
Proof.
  revert acc. induction l as [|y l IH]; intros acc; simpl.
  - now rewrite app_nil_r.
  - rewrite IH, <- app_assoc. reflexivity.
Qed.

Section BatchGeneration.
Variables (prompt : str) (api_keys : LLMProvider -> option str)
          (iterations : Z) (system_message : option str).

(** The loop over the configurations: one warning for each active
    configuration without a key, and [iterations] calls for each of the
    others that is active. *)
Lemma task_loop (configurations : list LLMConfiguration.t)
    (logs : list Generation.log) (tasks : list Generation.call) :
  fold_left (task_step prompt api_keys iterations system_message)
            configurations (logs, tasks)
  = (logs
     ++ map (fun c =>
               Generation.WarningNoApiKey (LLMConfiguration.provider c))
            (filter (keyless api_keys) configurations),
     tasks
     ++ flat_map (fun c =>
                    repeat (call_of prompt api_keys system_message c)
                           (Z.to_nat iterations))
                 (filter (usable api_keys) configurations)).
Proof.
  revert logs tasks.
  induction configurations as [|c l IH]; intros logs tasks.
  - simpl. now rewrite !app_nil_r.
  - cbn [fold_left filter]. unfold task_step at 2, usable, keyless.
    destruct (LLMConfiguration.is_active c); cbn [negb andb].
    + destruct (truthy (api_keys (LLMConfiguration.provider c)));
        cbn [negb]; rewrite IH.
      * rewrite append_loop, length_seq. cbn [flat_map].
        now rewrite <- app_assoc.
      * cbn [map]. now rewrite <- app_assoc.
    + apply IH.
Qed.
End BatchGeneration.

Section Gathering.
Context {R : Type}.
Variable answers : nat -> Generation.call -> Exception + R.

Lemma gathered_logs (calls : list Generation.call) (i : nat) :
  concat (map fst
            (map (fun '(i, c) => generate_response (answers i) c)
                 (combine (seq i (length calls)) calls)))
  = refusals answers i calls.
Proof.
  revert i. induction calls as [|c l IH]; intros i; [reflexivity|].
  cbn [length seq combine map concat refusals]. rewrite IH.
  unfold generate_response. now destruct (answers i c).
Qed.

Lemma gathered_results (calls : list Generation.call) (i : nat)
    (logs : list Generation.log) (acc : list R) :
  fold_left keep_response
            (map (fun '(i, c) => generate_response (answers i) c)
                 (combine (seq i (length calls)) calls))
            (logs, acc)
  = (logs ++ map Generation.ErrorResponseFailed (refused answers i calls),
     acc ++ answered answers i calls).
Proof.
  revert i logs acc. induction calls as [|c l IH]; intros i logs acc.
  - simpl. now rewrite !app_nil_r.
  - cbn [length seq combine map fold_left refused answered].
    unfold generate_response at 2. unfold keep_response at 2.
    destruct (answers i c) as [e|r]; cbn [snd]; rewrite IH;
      cbn [map]; now rewrite <- app_assoc.
Qed.

Lemma answered_refused_length (calls : list Generation.call) (i : nat) :
  (length (answered answers i calls) + length (refused answers i calls)
   = length calls)%nat.
Proof.
  revert i. induction calls as [|c l IH]; intros i; [reflexivity|].
  cbn [answered refused]. specialize (IH (S i)).
  destruct (answers i c); simpl; lia.
Qed.
End Gathering.

Lemma flat_repeat_length {X Y : Type} (f : X -> Y) (n : nat) (l : list X) :
  length (flat_map (fun x => repeat (f x) n) l) = (n * length l)%nat.
Proof.
  induction l as [|x l IH]; simpl; [lia|].
  rewrite length_app, repeat_length, IH. lia.
Qed.

(** X23: the batch of generated responses: an inactive configuration is
    passed over in silence, an active one without a key (no key, or the
    empty key) costs one warning and no call, and every other one gets
    [iterations] calls (none when [iterations] is not positive).  The
    batch does not raise: it returns the responses of the calls that
    succeeded, in the order of the calls, and logs one error for each
    call that failed, after the errors that these calls logged
    themselves. *)
Theorem batch_generation (R : Type)
    (answers : nat -> Generation.call -> Exception + R)
    (configurations : list LLMConfiguration.t) (prompt : str)
    (api_keys : LLMProvider -> option str) (iterations : Z)
    (system_message : option str) :
  let calls :=
    flat_map (fun c =>
                repeat (call_of prompt api_keys system_message c)
                       (Z.to_nat iterations))
             (filter (usable api_keys) configurations) in
  batch_generate_responses answers configurations prompt api_keys
                           iterations system_message
  = (map (fun c =>
            Generation.WarningNoApiKey (LLMConfiguration.provider c))
         (filter (keyless api_keys) configurations)
     ++ refusals answers 0 calls
     ++ map Generation.ErrorResponseFailed (refused answers 0 calls),
     inr (answered answers 0 calls))
  /\ len calls
     = (Z.max 0 iterations
        * len (filter (usable api_keys) configurations))%Z
  /\ (len (answered answers 0 calls) + len (refused answers 0 calls)
      = len calls)%Z.
Proof.
  intros calls. split; [|split].
  - unfold batch_generate_responses. rewrite task_loop. cbn [app].
    fold calls.
    rewrite (gathered_results answers calls 0 [] []).
    rewrite (gathered_logs answers calls 0). reflexivity.
  - subst calls. unfold len. rewrite flat_repeat_length. lia.
  - pose proof (answered_refused_length answers calls 0). unfold len. lia.
Qed.

(* ================================================================== *)
(** ** The generation of prompts *)
(* ================================================================== *)

Lemma parse_reply_clean (env : Env.t) (content : option str) :
  Forall (fun p => (5 < len p)%Z /\ unquoted p = true)
         (snd (parse_reply env content)).
Proof.
  destruct content as [response_content|]; [|constructor].
  unfold parse_reply, _parse_prompts_response.
  destruct (_ && _); [|constructor].
  destruct (Env.json_loads env _) as [[]|v]; try constructor.
  destruct (iterate v) as [e|items]; [constructor|].
  cbn [snd]. apply Forall_flat_map, Forall_forall. intros item _.
  apply valid_prompt_clean.
Qed.

Lemma in_lstrip (x : ascii) (s : str) : In x (lstrip s) -> In x s.
Proof.
  induction s as [|c s IH]; simpl; [easy|].
  destruct (isspace c); [intros H; right; now apply IH|easy].
Qed.

Lemma in_strip (x : ascii) (s : str) : In x (strip s) -> In x s.
Proof.
  unfold strip, rstrip. intros H.
  apply in_rev, in_lstrip in H. apply in_rev in H. now apply in_lstrip.
Qed.

(** A reply without an opening bracket gives no prompt. *)
Lemma parse_no_bracket (env : Env.t) (response_content : str) :
  ~ In "["%char response_content ->
  _parse_prompts_response env response_content
  = ([WarningNoJsonArray], []).
Proof.
  intros Hnot. unfold _parse_prompts_response, find_char.
  destruct (find_from_spec "["%char (strip response_content) 0)
    as [[_ Hf]|[pre [post [Hs _]]]].
  - now rewrite Hf.
  - elim Hnot. apply in_strip. rewrite Hs. apply in_or_app. right. now left.
Qed.

Lemma slice_prefix_length {X : Type} (l : list X) (n : Z) :
  (0 <= n)%Z -> (len (slice l 0 n) <= n)%Z.
Proof.
  intros Hn. unfold slice, clamp_index, len.
  destruct (Z.ltb_spec n 0); [lia|]. cbn [Z.ltb Z.compare].
  match goal with |- context [firstn ?k ?m] =>
    pose proof (firstn_le_length k m) end.
  lia.
Qed.

Lemma slice_Forall {X : Type} (P : X -> Prop) (l : list X) (a b : Z) :
  Forall P l -> Forall P (slice l a b).
Proof.
  intros H. unfold slice. rewrite Forall_forall in *. intros x Hx.
  apply in_firstn in Hx. apply H.
  rewrite <- (firstn_skipn (Z.to_nat (clamp_index (len l) a)) l).
  apply in_or_app. now right.
Qed.

Lemma generated_prompt_incl (cs cs' : list str) (p : PromptCreate.t) :
  incl cs cs' -> generated_prompt cs p -> generated_prompt cs' p.
Proof.
  intros Hincl [Ha [[c [Hc Hin]] Hrest]].
  split; [exact Ha|]. split; [|exact Hrest].
  exists c. split; [exact Hc|now apply Hincl].
Qed.

Section GeneratedPrompts.
Variables (env : Env.t) (ask : PromptRequest.t -> Exception + option str).

Lemma tagged_prompts_generated (content : option str) (category : str) :
  Forall (generated_prompt [category])
         (map (fun prompt_text =>
                 PromptCreate.mk prompt_text true (Some category))
              (snd (parse_reply env content))).
Proof.
  apply Forall_map.
  eapply Forall_impl; [|apply (parse_reply_clean env content)].
  intros p [Hlen Hq]. split; [reflexivity|]. split; [|now split].
  exists category. split; [reflexivity|now left].
Qed.

Lemma category_prompts_generated (user : User.t) (category : str)
    (api_key : str) (provider : LLMProvider) (model : str) (n : Z) :
  Forall (generated_prompt [category])
         (snd (_generate_category_prompts env ask user category api_key
                 provider model n)).
Proof.
  unfold _generate_category_prompts.
  destruct (ask _) as [e|content]; [constructor|].
  pose proof (tagged_prompts_generated content category) as H.
  destruct (parse_reply env content). exact H.
Qed.

Lemma general_prompts_generated (user : User.t) (api_key : str)
    (provider : LLMProvider) (model : str) (n : Z) :
  Forall (generated_prompt [lit "general"])
         (snd (_generate_general_prompts env ask user api_key provider
                 model n)).
Proof.
  unfold _generate_general_prompts.
  destruct (ask _) as [e|content]; [constructor|].
  pose proof (tagged_prompts_generated content (lit "general")) as H.
  destruct (parse_reply env content). exact H.
Qed.

Lemma category_loop_generated (user : User.t) (api_key : str)
    (provider : LLMProvider) (model : str) (max_prompts : Z)
    (categories todo : list str)
    (st : list PromptLog * list PromptCreate.t) :
  incl todo categories ->
  Forall (generated_prompt categories) (snd st) ->
  Forall (generated_prompt categories)
         (snd (fold_left
                 (category_step env ask user api_key provider model
                    max_prompts)
                 todo st)).
Proof.
  revert st.
  induction todo as [|category todo IH]; intros [logs all] Hsub Hst;
    [exact Hst|].
  cbn [fold_left]. apply IH.
  - intros c Hc. apply Hsub. now right.
  - unfold category_step.
    pose proof (category_prompts_generated user category api_key provider
                  model (max_prompts / len prompt_categories)) as H.
    destruct (_generate_category_prompts _ _ _ _ _ _ _ _) as [l' ps].
    cbn [snd] in *. apply Forall_app. split; [exact Hst|].
    eapply Forall_impl; [|exact H]. intros p.
    apply generated_prompt_incl. intros c [<-|[]].
    apply Hsub. now left.
Qed.
End GeneratedPrompts.

(** X24: the generation of the prompts of a sector returns at most
    [max_prompts] prompts, when [max_prompts] is not negative, however
    many the model gives; each one is marked as generated, is filed under
    one of the ten categories or under "general", has more than five
    characters and no quote character at either end. *)
Theorem sector_prompts_capped (env : Env.t)
    (ask : PromptRequest.t -> Exception + option str) (user : User.t)
    (api_key : str) (provider : LLMProvider) (model : option str)
    (max_prompts : Z) :
  let all_prompts :=
    snd (generate_sector_prompts env ask user api_key provider model
                                 max_prompts) in
  ((0 <= max_prompts)%Z -> (len all_prompts <= max_prompts)%Z)
  /\ Forall (generated_prompt (prompt_categories ++ [lit "general"]))
            all_prompts.
Proof.
  intros all_prompts. subst all_prompts. unfold generate_sector_prompts.
  cbv zeta.
  match goal with
  | |- context [category_step env ask user api_key provider ?chosen _] =>
      generalize chosen; intros m
  end.
  pose proof (category_loop_generated env ask user api_key provider m
                max_prompts prompt_categories prompt_categories ([], [])
                (incl_refl _) (Forall_nil _)) as Hcat.
  destruct (fold_left _ prompt_categories ([], [])) as [logs all].
  cbn [snd] in Hcat.
  pose proof (general_prompts_generated env ask user api_key provider m
                (max_prompts - len all)) as Hgen.
  assert (Hall : Forall (generated_prompt
                           (prompt_categories ++ [lit "general"])) all).
  { eapply Forall_impl; [|exact Hcat]. intros p.
    apply generated_prompt_incl. apply incl_appl, incl_refl. }
  destruct (len all <? max_prompts)%Z.
  - destruct (_generate_general_prompts _ _ _ _ _ _ _) as [l' ps].
    cbn [snd] in *. split; [apply slice_prefix_length|].
    apply slice_Forall, Forall_app. split; [exact Hall|].
    eapply Forall_impl; [|exact Hgen]. intros p.
    apply generated_prompt_incl. apply incl_appr, incl_refl.
  - cbn [snd]. split; [apply slice_prefix_length|].
    now apply slice_Forall.
Qed.

(** X25: the validation of prompts falls back on the prompts it was
    given, all of them, in their order, filed under "unvalidated", when
    the call of the model raises, and only then.  When the model answers,
    the prompts returned are those read in the reply, filed under
    "validated"; a reply without content, or with no opening bracket,
    gives no prompt at all. *)
Theorem validation_fallback (env : Env.t)
    (ask : PromptRequest.t -> Exception + option str)
    (prompts : list str) (user : User.t) (api_key : str)
    (provider : LLMProvider) (model : option str) :
  let request := validation_request prompts user api_key provider model in
  let validated :=
    snd (validate_and_refine_prompts env ask prompts user api_key
                                     provider model) in
  (forall e,
      ask request = inl e ->
      validated
      = map (fun p => PromptCreate.mk p true (Some (lit "unvalidated")))
            prompts)
  /\ (forall content,
         ask request = inr content ->
         Forall (generated_prompt [lit "validated"]) validated
         /\ match content with
            | None => validated = []
            | Some text => ~ In "["%char text -> validated = []
            end).
Proof.
  intros request validated. subst request validated.
  unfold validate_and_refine_prompts, validation_request.
  split.
  - intros e He. now rewrite He.
  - intros content Hc. rewrite Hc.
    pose proof (tagged_prompts_generated env content (lit "validated"))
      as H.
    destruct (parse_reply env content) as [records data] eqn:E.
    cbn [snd] in *. split; [exact H|].
    destruct content as [text|].
    + intros Hnot. unfold parse_reply in E.
      rewrite (parse_no_bracket env text Hnot) in E.
      now injection E as _ <-.
    + unfold parse_reply in E. now injection E as _ <-.
Qed.
